(** * SCons.Scanner.Fortran: the Fortran dependency scanner

    A shallow embedding of [src/engine/SCons/Scanner/Fortran.py] and the
    properties of its [scan] function: what the INCLUDE pattern extracts,
    how references are resolved against the search path, what the two
    per-node caches ([node.includes], [node.found_includes]) remember, and
    the order of the returned list. *)

From stdpp Require Import gmap strings list sorting.
From Stdlib Require Import Ascii String.

Local Open Scope string_scope.

(** ** The pattern [include_re] *)

Module Re.

(** Character classes of the pattern.  Without the LOCALE or UNICODE flag,
    [\w] is [[a-zA-Z0-9_]]. *)
Definition in_range (lo hi : nat) (c : ascii) : bool :=
  (lo <=? nat_of_ascii c)%nat && (nat_of_ascii c <=? hi)%nat.

Definition is_word (c : ascii) : bool :=
  in_range 97 122 c || in_range 65 90 c || in_range 48 57 c
  || Ascii.eqb c "_"%char.

(** [[ \t]] *)
Definition is_blank (c : ascii) : bool :=
  Ascii.eqb c " "%char || Ascii.eqb c (ascii_of_nat 9).

(** [[\w./\\]] *)
Definition is_name_char (c : ascii) : bool :=
  is_word c || Ascii.eqb c "."%char || Ascii.eqb c "/"%char
  || Ascii.eqb c "\"%char.

(** [all_in cls s]: every character of [s] is in the class. *)
Fixpoint all_in (cls : ascii -> bool) (s : string) : bool :=
  match s with
  | EmptyString => true
  | String c s' => cls c && all_in cls s'
  end.

(** The pieces a pattern such as [include_re] is made of: a literal run, a
    greedy [[class]+], and a capturing [([class]+)]. *)
Inductive item :=
| Lit (l : string)
| Plus (cls : ascii -> bool)
| Group (cls : ascii -> bool).

(** [strip l s]: [s] without its prefix [l], when [l] is a prefix of [s]. *)
Fixpoint strip (l s : string) : option string :=
  match l, s with
  | EmptyString, _ => Some s
  | String a l', String b s' => if Ascii.eqb a b then strip l' s' else None
  | String _ _, EmptyString => None
  end.

(** [plus cls k acc s]: one or more characters of [cls] at the head of [s],
    then the rest of the pattern [k]; the longest run is tried first and
    shorter ones on failure, as the backtracking matcher of [re] does.  [acc]
    is the text consumed so far. *)
Fixpoint plus {X} (cls : ascii -> bool) (k : string -> string -> option X)
    (acc s : string) : option X :=
  match s with
  | String c s' =>
      if cls c then
        match plus cls k (acc ++ String c EmptyString) s' with
        | Some r => Some r
        | None => k (acc ++ String c EmptyString) s'
        end
      else None
  | EmptyString => None
  end.

(** [match_here r s grp]: match the items [r] at the head of [s]; on success
    the text of the group and what is left of [s]. *)
Fixpoint match_here (r : list item) (s grp : string) : option (string * string) :=
  match r with
  | [] => Some (grp, s)
  | Lit l :: r' =>
      match strip l s with
      | Some s' => match_here r' s' grp
      | None => None
      end
  | Plus cls :: r' => plus cls (fun _ s' => match_here r' s' grp) "" s
  | Group cls :: r' => plus cls (fun g s' => match_here r' s' g) "" s
  end.

(** [include_re = re.compile("INCLUDE[ \t]+'([\\w./\\\\]+)'", re.M)].
    The pattern has no [^] or [$], so [re.M] changes nothing. *)
Definition include_re : list item :=
  [Lit "INCLUDE"; Plus is_blank; Lit "'"; Group is_name_char; Lit "'"].

(** [r.findall(s)] for a pattern with one group: the group of every match,
    left to right, matches not overlapping.  A match of [include_re] is never
    empty, so the search resumes where the match ended.  The fuel is the
    number of characters still to look at. *)
Fixpoint findall_from (r : list item) (fuel : nat) (s : string) : list string :=
  match fuel with
  | O => []
  | S fuel' =>
      match s with
      | EmptyString => []
      | String _ s' =>
          match match_here r s "" with
          | Some (g, rest) => g :: findall_from r fuel' rest
          | None => findall_from r fuel' s'
          end
      end
  end.

Definition findall (r : list item) (s : string) : list string :=
  findall_from r (String.length s) s.

(** The text of a directive as [include_re] describes it: the keyword, a
    run of blanks, and the file name between single quotes. *)
Definition directive (blanks name : string) : string :=
  "INCLUDE" ++ blanks ++ "'" ++ name ++ "'".

(** [no_capital_I s]: the letter [I], with which every match begins, is
    nowhere in [s]. *)
Definition no_capital_I (s : string) : bool :=
  all_in (fun c => negb (Ascii.eqb c "I"%char)) s.

(** A content made of directives, each after a text [sep], and a last text
    [tail]: the pieces are [(sep, blanks, name)]. *)
Definition text_of (pieces : list (string * string * string)) (tail : string)
    : string :=
  foldr (fun '(sep, blanks, name) rest => sep ++ directive blanks name ++ rest)
        tail pieces.

(** A piece whose text has no [I] and whose directive is as the pattern
    describes it. *)
Definition well_formed_piece (piece : string * string * string) : Prop :=
  let '(sep, blanks, name) := piece in
  no_capital_I sep = true /\
  blanks <> "" /\ all_in is_blank blanks = true /\
  name <> "" /\ all_in is_name_char name = true.

End Re.

(** ** Nodes, storage and the state [scan] works on *)

(** A node is identified by its path: [str(node)].  Directories likewise. *)
Abbreviation Node := string (only parsing).
Abbreviation Dir := string (only parsing).
Abbreviation Target := string (only parsing).

Definition str (node : Node) : string := node.

(** The files that exist on storage, with their contents:
    [node.rexists()] and [node.get_contents()]. *)
Abbreviation Storage := (gmap string string) (only parsing).

(** The construction environment; [env['F77PATH']] is a list of directory
    names. *)
Abbreviation Env := (gmap string (list string)) (only parsing).

(** The two attributes [scan] keeps on a node: [node.includes] ([None] until
    the content has been searched) and the dictionary [node.found_includes],
    keyed on the search path. *)
Record NodeAttrs := mkNodeAttrs {
  includes : option (list string);
  found_includes : gmap (list string) (list string)
}.

Definition fresh_attrs : NodeAttrs := mkNodeAttrs None ∅.

Inductive WarningClass := DependencyWarning.

Record Warning := mkWarning { w_class : WarningClass; w_message : string }.

(** Everything [scan] reads and writes besides storage: the attributes of
    the nodes, [target.f77path] for the targets that have the attribute, and
    the warnings given to [SCons.Warnings.warn], oldest first. *)
Record World := mkWorld {
  nodes_of : gmap string NodeAttrs;
  f77path_of : gmap string (list string);
  warnings : list Warning
}.

Definition empty_world : World := mkWorld ∅ ∅ [].

(** The attributes of a node; a node that no scan has touched has
    [includes = None] and an empty [found_includes]. *)
Definition attrs (w : World) (node : Node) : NodeAttrs :=
  default fresh_attrs (nodes_of w !! node).

(** ** Exceptions and state *)

Inductive exn := KeyError | AttributeError.

Inductive result (A : Type) :=
| Ok (a : A)
| Raise (e : exn).
Arguments Ok {A} a.
Arguments Raise {A} e.

Definition M (A : Type) : Type := World -> result A * World.

Definition ret {A} (a : A) : M A := fun w => (Ok a, w).

Definition bind {A B} (m : M A) (f : A -> M B) : M B :=
  fun w => match m w with
           | (Ok a, w') => f a w'
           | (Raise e, w') => (Raise e, w')
           end.

Definition raise {A} (e : exn) : M A := fun w => (Raise e, w).

(** [try: m except KeyError: h] *)
Definition try_except_KeyError {A} (m : M A) (h : M A) : M A :=
  fun w => match m w with
           | (Raise KeyError, w') => h w'
           | r => r
           end.

Notation "'do' x <- m ; k" := (bind m (fun x => k))
  (at level 10, x name, m at level 100, k at level 200).

(** [d[key]] on a dictionary. *)
Definition getitem {K V} `{Countable K} (d : gmap K V) (key : K) : M V :=
  match d !! key with
  | Some v => ret v
  | None => raise KeyError
  end.

(** [hasattr(target, 'f77path')] and [target.f77path] *)
Definition hasattr_f77path (target : Target) : M bool :=
  fun w => (Ok (bool_decide (is_Some (f77path_of w !! target))), w).

Definition getattr_f77path (target : Target) : M (list Dir) :=
  fun w => match f77path_of w !! target with
           | Some p => (Ok p, w)
           | None => (Raise AttributeError, w)
           end.

Definition setattr_f77path (target : Target) (p : list Dir) : M unit :=
  fun w => (Ok tt, mkWorld (nodes_of w) (<[target := p]> (f77path_of w)) (warnings w)).

Definition get_includes (node : Node) : M (option (list string)) :=
  fun w => (Ok (includes (attrs w node)), w).

Definition set_includes (node : Node) (l : list string) : M unit :=
  fun w => (Ok tt,
            mkWorld (<[node := mkNodeAttrs (Some l) (found_includes (attrs w node))]> (nodes_of w))
                    (f77path_of w) (warnings w)).

Definition get_found_includes (node : Node) (key : list Dir) : M (list Node) :=
  fun w => getitem (found_includes (attrs w node)) key w.

Definition set_found_includes (node : Node) (key : list Dir) (l : list Node) : M unit :=
  fun w => (Ok tt,
            mkWorld (<[node := mkNodeAttrs (includes (attrs w node))
                                           (<[key := l]> (found_includes (attrs w node)))]> (nodes_of w))
                    (f77path_of w) (warnings w)).

(** [SCons.Warnings.warn(clazz, message)]: one event on the warning channel. *)
Definition warn (clazz : WarningClass) (message : string) : M unit :=
  fun w => (Ok tt, mkWorld (nodes_of w) (f77path_of w) (warnings w ++ [mkWarning clazz message])).

(** ** Sorting: the Schwartzian transform [st] *)

(** Modelled from the spec: the comparison of two nodes
    ([SCons.Node.FS.Entry.__cmp__]) is not in this source file.  A node has
    "a stable identity (normalized absolute path)", and two nodes are
    compared by it. *)
Definition node_leb (a b : Node) : bool := String.leb (str a) (str b).

(** [paired.sort()] orders the [(Metric(element), element)] tuples as Python
    orders tuples: by the first component, and by the second when the first
    are equal.  Strings compare byte by byte.  The order is total and
    antisymmetric, so the sorted list does not depend on how the sort
    proceeds. *)
Definition tuple_leb (p q : string * Node) : bool :=
  match String.compare p.1 q.1 with
  | Lt => true
  | Eq => node_leb p.2 q.2
  | Gt => false
  end.

Definition tuple_le (p q : string * Node) : Prop := tuple_leb p q = true.

#[global] Instance tuple_le_dec : RelDecision tuple_le.
Proof. intros p q. unfold tuple_le. apply _. Defined.

Definition st (List : list Node) (Metric : Node -> string) : list Node :=
  let pairing element := (Metric element, element) in
  let stripit (pair : string * Node) := pair.2 in
  let paired := map pairing List in
  let paired := merge_sort tuple_le paired in
  map stripit paired.

(** [key_le Metric a b]: the key of [a] is not after the key of [b]. *)
Definition key_le (Metric : Node -> string) (a b : Node) : Prop :=
  String.leb (Metric a) (Metric b) = true.

(** [node_order Metric a b]: the tuple of [a] is not after the tuple of [b]
    in the order [paired.sort()] sorts by; it is the order of two nodes in
    every list [st] returns. *)
Definition node_order (Metric : Node -> string) (a b : Node) : Prop :=
  tuple_le (Metric a, a) (Metric b, b).

(** Modelled from the spec: [SCons.Node.FS._my_normcase] is not in this
    source file.  The nodes are ordered by "a normalized key (case-folded,
    separator-normalized path string)": an upper-case letter is folded to
    its lower-case letter and a backslash is written as a slash. *)
Definition spec_normcase_char (c : ascii) : ascii :=
  if Re.in_range 65 90 c then ascii_of_nat (nat_of_ascii c + 32)
  else if Ascii.eqb c "\"%char then "/"%char
  else c.

Fixpoint spec_normcase (s : string) : string :=
  match s with
  | EmptyString => EmptyString
  | String c s' => String (spec_normcase_char c) (spec_normcase s')
  end.

(** ** The scanner *)

(** What [scan] takes from the rest of SCons, none of it in this source file:
    [SCons.Node.FS._my_normcase]; the node factory [fs.File], called by
    [find_file] as [node_factory(filename, dir)]; [node.get_dir()];
    [node.rfile()]; the directories
    [fs.Rsearchall(SCons.Util.mapPaths(v, cwd), clazz=Dir)] of a path value
    [v]; and [target.cwd]. *)
Class NodeFS := {
  _my_normcase : string -> string;
  File : string -> Dir -> Node;
  get_dir : Node -> Dir;
  rfile : Node -> Node;
  Rsearchall : list string -> Dir -> list Dir;
  cwd : Target -> Dir
}.

(** The rest of SCons with [_my_normcase] as the spec describes the key. *)
Definition folding (L : NodeFS) : NodeFS := {|
  _my_normcase := spec_normcase;
  File := @File L;
  get_dir := @get_dir L;
  rfile := @rfile L;
  Rsearchall := @Rsearchall L;
  cwd := @cwd L
|}.

(** The nodes held in the [found_includes] entries of any node. *)
Definition cached_nodes (w : World) : gset string :=
  ⋃ (map (fun a : NodeAttrs =>
            ⋃ (map (fun pl : list string * list string => list_to_set pl.2)
                   (map_to_list (found_includes a))))
         (map snd (map_to_list (nodes_of w)))).

Section Scanner.

Context {nodefs : NodeFS}.

Definition rexists (fs : Storage) (node : Node) : bool :=
  bool_decide (is_Some (fs !! node)).

Definition get_contents (fs : Storage) (node : Node) : string :=
  default "" (fs !! node).

(** Modelled from the spec: [SCons.Node.FS.find_file] is not in this source
    file.  The Path Resolver "given an include-like name and an ordered list
    of candidate directories, finds the first existing matching artifact";
    it "returns the first existing match" and "returns 'not found' rather
    than failing when no match exists". *)
Fixpoint find_file (fs : Storage) (filename : string) (paths : list Dir)
    : option Node :=
  match paths with
  | [] => None
  | dir :: paths' =>
      let node := File filename dir in
      if rexists fs node then Some node else find_file fs filename paths'
  end.

Definition no_dependency_message (include : string) (node : Node) : string :=
  "No dependency generated for file: " ++ include ++
  " (included from: " ++ str node ++ ") -- file not found".

Definition no_dependency_warning (node : Node) (include : string) : Warning :=
  mkWarning DependencyWarning (no_dependency_message include node).

(** The loop [for include in includes: ...] with the local list [nodes]. *)
Fixpoint resolve_includes (fs : Storage) (node : Node) (paths : list Dir)
    (includes : list string) (nodes : list Node) : M (list Node) :=
  match includes with
  | [] => ret nodes
  | include :: includes' =>
      match find_file fs include paths with
      | Some n => resolve_includes fs node paths includes' (nodes ++ [n])
      | None =>
          do _ <- warn DependencyWarning (no_dependency_message include node);
          resolve_includes fs node paths includes' nodes
      end
  end.

Definition normalize (node : Node) : string := _my_normcase (str node).

(** Lines 79-85: [target.f77path], computed from [env['F77PATH']] the first
    time the target is seen. *)
Definition scan_f77path (env : Env) (target : Target) : M (list Dir) :=
  do has <- hasattr_f77path target;
  do _ <- (if negb has then
             try_except_KeyError
               (do v <- getitem env "F77PATH";
                setattr_f77path target (Rsearchall v (cwd target)))
               (setattr_f77path target [])
           else ret tt);
  getattr_f77path target.

(** Lines 87-113: the nodes found for [f77path], from [node.found_includes]
    or by resolving the references of the node. *)
Definition scan_nodes (node : Node) (fs : Storage) (f77path : list Dir)
    : M (list Node) :=
  let node := rfile node in
  try_except_KeyError
    (get_found_includes node f77path)
    (do nodes <-
       (if rexists fs node then
          do cached <- get_includes node;
          do includes <-
            match cached with
            | Some includes => ret includes
            | None =>
                let includes := Re.findall Re.include_re (get_contents fs node) in
                do _ <- set_includes node includes;
                ret includes
            end;
          let source_dir := get_dir node in
          resolve_includes fs node (source_dir :: f77path) includes []
        else ret []);
     do _ <- set_found_includes node f77path nodes;
     ret nodes).

Definition scan (node : Node) (env : Env) (target : Target) (fs : Storage)
    : M (list Node) :=
  do f77path <- scan_f77path env target;
  do nodes <- scan_nodes node fs f77path;
  ret (st nodes normalize).

(** "[target.f77path] - [env['F77PATH']] converted to nodes", the empty
    tuple when the environment has no ['F77PATH']. *)
Definition f77path_of_env (env : Env) (target : Target) : list Dir :=
  match env !! "F77PATH" with
  | Some v => Rsearchall v (cwd target)
  | None => []
  end.

(** What the first lines of [scan] leave in [target.f77path]: the attribute
    when the target has it, else the path of the environment. *)
Definition search_path (env : Env) (target : Target) (w : World) : list Dir :=
  match f77path_of w !! target with
  | Some p => p
  | None => f77path_of_env env target
  end.

(** The attribute [target.f77path], when the target has it, is the path of
    this environment: it was set by a scan under [env]. *)
Definition f77path_from_env (env : Env) (target : Target) (w : World) : Prop :=
  forall p, f77path_of w !! target = Some p -> p = f77path_of_env env target.

(** The state once [target.f77path] is set to [p]. *)
Definition with_f77path (target : Target) (p : list Dir) (w : World) : World :=
  mkWorld (nodes_of w) (<[target := p]> (f77path_of w)) (warnings w).

(** The raw references [scan] resolves on a miss of [found_includes]:
    [node.includes] when it is not [None], else what [include_re] finds in
    the content now. *)
Definition raw_includes (fs : Storage) (w : World) (node : Node) : list string :=
  match includes (attrs w node) with
  | Some l => l
  | None => Re.findall Re.include_re (get_contents fs node)
  end.

Definition resolved (fs : Storage) (paths : list Dir) (incs : list string)
    : list Node :=
  omap (fun include => find_file fs include paths) incs.

Definition unresolved (fs : Storage) (paths : list Dir) (incs : list string)
    : list string :=
  filter (fun include => find_file fs include paths = None) incs.

(** What a miss of [found_includes] computes for the node [node] (already
    [rfile]d) and the search path [p], and the state it leaves. *)
Definition miss_nodes (fs : Storage) (w : World) (node : Node) (p : list Dir)
    : list Node :=
  if rexists fs node
  then resolved fs (get_dir node :: p) (raw_includes fs w node)
  else [].

Definition miss_warnings (fs : Storage) (w : World) (node : Node) (p : list Dir)
    : list Warning :=
  if rexists fs node
  then map (no_dependency_warning node)
           (unresolved fs (get_dir node :: p) (raw_includes fs w node))
  else [].

Definition miss_world (fs : Storage) (w : World) (node : Node) (p : list Dir)
    : World :=
  mkWorld
    (<[node := mkNodeAttrs
                 (if rexists fs node then Some (raw_includes fs w node)
                  else includes (attrs w node))
                 (<[p := miss_nodes fs w node p]> (found_includes (attrs w node)))]>
       (nodes_of w))
    (f77path_of w)
    (warnings w ++ miss_warnings fs w node p).

(** Every node held in a [found_includes] entry is in [K]. *)
Definition cached_within (K : gset string) (w : World) : Prop :=
  forall n p l x,
    found_includes (attrs w n) !! p = Some l -> x ∈ l -> x ∈ K.

(** Modelled from the spec: the class [SCons.Scanner.Recursive], which
    [FortranScan] wraps around [scan], is not in this source file.  The
    Recursive Scan Driver is to "recurse into each newly resolved node using
    the same search path, accumulating the transitive closure", to "track a
    currently visiting set per top-level scan request" and "on detecting a
    revisit, stop recursing further along that path without raising an
    error", and then to "deduplicate the accumulated set" and "order it
    deterministically using a normalized key".  [todo] holds the nodes still
    to scan, [seen] the visiting set, [deps] the closure so far; [None] is
    for a run that the fuel cut short. *)
Fixpoint Recursive_loop (function : Node -> M (list Node)) (fuel : nat)
    (todo : list Node) (seen : gset string) (deps : list Node)
    : M (option (list Node)) :=
  match fuel with
  | O => ret None
  | S fuel' =>
      match todo with
      | [] => ret (Some deps)
      | n :: todo' =>
          do d <- function n;
          let new := remove_dups (filter (fun x => x ∉ seen) d) in
          Recursive_loop function fuel' (todo' ++ new)
            (seen ∪ list_to_set new) (deps ++ new)
      end
  end.

(** Modelled from the spec: a scanner made by [SCons.Scanner.Recursive]
    from a scan function, a name and the suffixes it is registered for, and
    the run of it on a node, a "top-level scan request". *)
Record Scanner := Recursive {
  scanner_function : Node -> Env -> Target -> Storage -> M (list Node);
  scanner_name : string;
  scanner_skeys : list string
}.

Definition Recursive_scan (scanner : Scanner) (fuel : nat)
    (node : Node) (env : Env) (target : Target) (fs : Storage)
    : M (option (list Node)) :=
  do r <- Recursive_loop (fun n => scanner_function scanner n env target fs)
            fuel [node] {[node]} [];
  ret (option_map (fun deps => st deps normalize) r).

(** [FortranScan()]: "a prototype Scanner instance for scanning source files
    for Fortran INCLUDE statements". *)
Definition FortranScan : Scanner :=
  Recursive scan "FortranScan" [".f"; ".F"; ".for"; ".FOR"].

End Scanner.

(** ** A concrete instance: POSIX paths *)

Module Posix.

Definition join (filename : string) (dir : Dir) : Node := dir ++ "/" ++ filename.

Fixpoint dirname_aux (s : string) : option string :=
  match s with
  | EmptyString => None
  | String c s' =>
      match dirname_aux s' with
      | Some d => Some (String c d)
      | None => if Ascii.eqb c "/"%char then Some EmptyString else None
      end
  end.

Definition dirname (node : Node) : Dir := default "." (dirname_aux node).

(** [_my_normcase] is the key of the spec; no repository is configured, so
    [rfile] returns the node itself; the directories of the path are taken
    as they are written. *)
Definition fs : NodeFS := {|
  _my_normcase := spec_normcase;
  File := join;
  get_dir := dirname;
  rfile := fun node => node;
  Rsearchall := fun v _ => v;
  cwd := fun _ => "."
|}.

Definition scan := @scan fs.

Definition FortranScan := @Recursive_scan fs (@FortranScan fs).

End Posix.

Definition nl : string := String (ascii_of_nat 10) EmptyString.

Definition main_f : string :=
  "      PROGRAM MAIN" ++ nl ++ "      INCLUDE 'a.inc'" ++ nl ++
  "      INCLUDE 'b.inc'" ++ nl ++ "      END" ++ nl.

Definition fs_main : Storage :=
  <["src/main.f" := main_f]> (<["src/a.inc" := "C     nothing"]> ∅).

(** [x.inc] in two directories of the path, and not beside the includer. *)
Definition fs_two_dirs : Storage :=
  <["src/main.f" := "      INCLUDE 'x.inc'"]>
    (<["inc1/x.inc" := "C     first"]> (<["inc2/x.inc" := "C     second"]> ∅)).

Definition env_two_dirs : Env := {["F77PATH" := ["inc1"; "inc2"]]}.

(** [main.f] before and after an edit that changes what it includes. *)
Definition fs_before_edit : Storage :=
  <["src/main.f" := "      INCLUDE 'a.inc'"]>
    (<["src/a.inc" := "C     a"]> (<["src/c.inc" := "C     c"]> ∅)).

Definition fs_after_edit : Storage :=
  <["src/main.f" := "      INCLUDE 'c.inc'"]> fs_before_edit.

Definition env_inc : Env := {["F77PATH" := ["inc"]]}.

Definition env_lib : Env := {["F77PATH" := ["lib"]]}.

(** [gen.f] before and after it is produced. *)
Definition fs_not_built : Storage := <["src/a.inc" := "C     a"]> ∅.

Definition fs_built : Storage :=
  <["src/gen.f" := "      INCLUDE 'a.inc'"]> fs_not_built.

(** [a.inc] included twice. *)
Definition fs_twice : Storage :=
  <["src/main.f" := "      INCLUDE 'a.inc'" ++ nl ++ "      INCLUDE 'a.inc'"]>
    (<["src/a.inc" := "C     a"]> ∅).

(** [a.f] and [b.f] include each other. *)
Definition fs_cycle : Storage :=
  <["src/a.f" := "      INCLUDE 'b.f'"]>
    (<["src/b.f" := "      INCLUDE 'a.f'"]> ∅).


(** [b.f] alone, before [a.f] is there. *)
Definition fs_only_b : Storage := <["src/b.f" := "      INCLUDE 'a.f'"]> ∅.

(** Two files whose names differ in case only where they are sorted. *)
Definition fs_mixed_case : Storage :=
  <["src/main.f" := "      INCLUDE 'a.inc'" ++ nl ++ "      INCLUDE 'B.inc'"]>
    (<["src/a.inc" := "C     a"]> (<["src/B.inc" := "C     b"]> ∅)).

(** The double quote. *)
Definition dquote : string := String (ascii_of_nat 34) EmptyString.

(** ** The pattern at work *)

Example findall_two :
  Re.findall Re.include_re
    ("      PROGRAM FOO" ++ nl ++ "      INCLUDE 'a.inc'" ++ nl ++
     "      INCLUDE   'sub/b.inc'" ++ nl ++ "      STOP" ++ nl)
  = ["a.inc"; "sub/b.inc"].
Proof. reflexivity. Qed.

Example end_to_end :
  let '(r, w) := Posix.scan "src/main.f" ∅ "main.o" fs_main empty_world in
  r = Ok ["src/a.inc"] /\
  warnings w = [mkWarning DependencyWarning
     "No dependency generated for file: b.inc (included from: src/main.f) -- file not found"].
Proof. vm_compute. split; reflexivity. Qed.

Example cycle_runs :
  (Posix.FortranScan 3 "src/a.f" ∅ "a.o" fs_cycle empty_world).1
  = Ok (Some ["src/b.f"]).
Proof. vm_compute. reflexivity. Qed.

(** ** What [include_re] matches *)

Section ReFacts.

Import Re.

Lemma append_cons c (s1 s2 : string) : String c s1 ++ s2 = String c (s1 ++ s2).
Proof. reflexivity. Qed.

Lemma append_nil_l (s : string) : "" ++ s = s.
Proof. reflexivity. Qed.

Tactic Notation "push_append" := rewrite ?append_cons, ?append_nil_l.
Tactic Notation "push_append" "in" hyp(H) := rewrite ?append_cons, ?append_nil_l in H.

Lemma append_assoc (s1 s2 s3 : string) : (s1 ++ s2) ++ s3 = s1 ++ (s2 ++ s3).
Proof. induction s1 as [|c s1 IH]; push_append; [done|]. by rewrite IH. Qed.

Lemma append_nil_r (s : string) : s ++ "" = s.
Proof. induction s as [|c s IH]; push_append; [done|]. by rewrite IH. Qed.

Lemma length_append (s1 s2 : string) :
  String.length (s1 ++ s2) = String.length s1 + String.length s2.
Proof. induction s1 as [|c s1 IH]; push_append; simpl; [done|]. by rewrite IH. Qed.

(** Two ways of cutting one string: one cut is before the other. *)
Lemma append_eq_append (s1 : string) : forall s2 t1 t2,
  s1 ++ s2 = t1 ++ t2 ->
  (exists k, t1 = s1 ++ k /\ s2 = k ++ t2) \/
  (exists c k, s1 = t1 ++ String c k /\ t2 = String c k ++ s2).
Proof.
  induction s1 as [|c s1 IH]; intros s2 t1 t2 Heq;
    rewrite ?append_cons, ?append_nil_l in Heq.
  - left. by exists t1.
  - destruct t1 as [|d t1]; rewrite ?append_cons, ?append_nil_l in Heq.
    + right. by exists c, s1.
    + injection Heq as -> Heq.
      destruct (IH _ _ _ Heq) as [(k & -> & ->)|(c' & k & -> & ->)].
      * left. by exists k.
      * right. by exists c', k.
Qed.

Lemma strip_append l s : strip l (l ++ s) = Some s.
Proof.
  induction l as [|c l IH]; push_append; simpl; [done|].
  by rewrite Ascii.eqb_refl.
Qed.

Lemma strip_sound l : forall s s', strip l s = Some s' -> s = l ++ s'.
Proof.
  induction l as [|c l IH]; intros [|d s] s'; simpl; try done.
  - by intros [= <-].
  - by intros [= <-].
  - destruct (Ascii.eqb_spec c d) as [->|]; [|done].
    intros Hs. by rewrite (IH _ _ Hs).
Qed.

(** A successful [plus] consumed a run of the class, not empty, and went on
    with the rest. *)
Lemma plus_sound {X} cls (k : string -> string -> option X) s : forall acc r,
  plus cls k acc s = Some r ->
  exists run rest,
    run <> "" /\ all_in cls run = true /\ s = run ++ rest /\
    k (acc ++ run) rest = Some r.
Proof.
  induction s as [|c s IH]; intros acc r; cbn [plus]; [done|].
  destruct (cls c) eqn:Hc; [|done].
  destruct (plus cls k (acc ++ String c "") s) as [r'|] eqn:Hplus.
  - intros [= ->]. destruct (IH _ _ Hplus) as (run & rest & _ & Hall & -> & Hk).
    exists (String c run), rest. cbn [all_in]. rewrite Hc, Hall.
    rewrite append_assoc in Hk. done.
  - intros Hk. exists (String c ""), s. cbn [all_in]. by rewrite Hc.
Qed.

(** When what follows the run is not in the class and the rest of the
    pattern cannot start on a character of the class, [plus] takes the whole
    run: no shorter run can succeed. *)
Lemma plus_longest {X} cls (k : string -> string -> option X) rest :
  (forall acc c s, cls c = true -> k acc (String c s) = None) ->
  (forall c s, rest = String c s -> cls c = false) ->
  forall run acc,
    run <> "" -> all_in cls run = true ->
    plus cls k acc (run ++ rest) = k (acc ++ run) rest.
Proof.
  intros Hk Hrest. induction run as [|c run IH]; intros acc Hne Hall; [done|].
  push_append. cbn [plus]. cbn [all_in] in Hall.
  apply andb_true_iff in Hall as [Hc Hall]. rewrite Hc.
  destruct run as [|d run].
  - push_append. destruct rest as [|e rest]; cbn [plus]; [done|].
    by rewrite (Hrest e rest eq_refl).
  - rewrite IH by done. rewrite append_assoc. push_append.
    destruct (k (acc ++ String c (String d run)) rest) eqn:E; [done|].
    cbn [all_in] in Hall. apply andb_true_iff in Hall as [Hd _].
    by rewrite Hk.
Qed.

Lemma quote_not_name : is_name_char "'"%char = false.
Proof. reflexivity. Qed.

Lemma quote_not_blank : is_blank "'"%char = false.
Proof. reflexivity. Qed.

Lemma quote_stops_name (acc : string) c s :
  is_name_char c = true ->
  match_here [Lit "'"] (String c s) acc = None.
Proof.
  intros Hc. cbn [match_here strip].
  destruct (Ascii.eqb_spec "'"%char c) as [<-|]; [|done].
  by rewrite quote_not_name in Hc.
Qed.

Lemma quote_stops_blank (acc : string) c s :
  is_blank c = true ->
  match_here [Lit "'"; Group is_name_char; Lit "'"] (String c s) acc = None.
Proof.
  intros Hc. cbn [match_here strip].
  destruct (Ascii.eqb_spec "'"%char c) as [<-|]; [|done].
  by rewrite quote_not_blank in Hc.
Qed.

Lemma match_here_directive blanks name post :
  blanks <> "" -> all_in is_blank blanks = true ->
  name <> "" -> all_in is_name_char name = true ->
  match_here include_re (directive blanks name ++ post) "" = Some (name, post).
Proof.
  intros Hb1 Hb2 Hn1 Hn2. unfold directive, include_re.
  rewrite !append_assoc. cbn [match_here]. rewrite (strip_append "INCLUDE").
  rewrite plus_longest;
    [|intros; by apply (quote_stops_blank "")|by intros c s [= <- <-]|done|done].
  cbn beta. cbn [match_here]. rewrite (strip_append "'").
  rewrite plus_longest;
    [|intros; by apply quote_stops_name|by intros c s [= <- <-]|done|done].
  cbn beta. cbn [match_here]. by rewrite (strip_append "'").
Qed.

Lemma match_here_sound s g rest :
  match_here include_re s "" = Some (g, rest) ->
  exists blanks,
    blanks <> "" /\ all_in is_blank blanks = true /\
    g <> "" /\ all_in is_name_char g = true /\
    s = directive blanks g ++ rest.
Proof.
  unfold include_re. cbn [match_here].
  destruct (strip "INCLUDE" s) as [s1|] eqn:H1; [|done].
  apply strip_sound in H1 as ->. intros Hp.
  apply plus_sound in Hp as (blanks & s2 & Hb1 & Hb2 & -> & Hp).
  destruct (strip "'" s2) as [s3|] eqn:H3; [|done].
  apply strip_sound in H3 as ->.
  apply plus_sound in Hp as (name & s4 & Hn1 & Hn2 & -> & Hp).
  destruct (strip "'" s4) as [s5|] eqn:H5; [|done].
  apply strip_sound in H5 as ->. injection Hp as <- <-.
  exists blanks. unfold directive. rewrite !append_assoc. done.
Qed.

Lemma findall_from_enough n : forall m s,
  String.length s <= n -> String.length s <= m ->
  findall_from include_re n s = findall_from include_re m s.
Proof.
  induction n as [|n IH]; intros m s Hn Hm.
  - destruct s; [|simpl in Hn; lia]. by destruct m.
  - destruct m as [|m]; [destruct s; [done|simpl in Hm; lia]|].
    destruct s as [|c s]; [done|]. cbn [findall_from].
    destruct (match_here include_re (String c s) "") as [[g rest]|] eqn:E.
    + apply match_here_sound in E as (blanks & _ & _ & _ & _ & Hs).
      assert (String.length rest < String.length (String c s)).
      { rewrite Hs. unfold directive. rewrite !length_append. simpl. lia. }
      simpl in *. f_equal. apply IH; lia.
    + simpl in *. apply IH; lia.
Qed.

(** [findall], one step at a time. *)
Lemma findall_step c s :
  findall include_re (String c s) =
  match match_here include_re (String c s) "" with
  | Some (g, rest) => g :: findall include_re rest
  | None => findall include_re s
  end.
Proof.
  unfold findall. cbn [String.length findall_from].
  destruct (match_here include_re (String c s) "") as [[g rest]|] eqn:E.
  - apply match_here_sound in E as (blanks & _ & _ & _ & _ & Hs).
    f_equal. apply findall_from_enough; [|done].
    assert (String.length (String c s) = String.length (directive blanks g ++ rest))
      by by rewrite Hs.
    unfold directive in *. rewrite !length_append in *. simpl in *. lia.
  - done.
Qed.

Lemma findall_at_match s g rest :
  match_here include_re s "" = Some (g, rest) ->
  findall include_re s = g :: findall include_re rest.
Proof.
  destruct s as [|c s]; [done|]. intros Hm. by rewrite findall_step, Hm.
Qed.

Lemma all_in_append cls (s1 s2 : string) :
  all_in cls (s1 ++ s2) = all_in cls s1 && all_in cls s2.
Proof.
  induction s1 as [|c s1 IH]; push_append; cbn [all_in]; [done|].
  by rewrite IH, andb_assoc.
Qed.

(** Two runs of one class, each followed by a character outside it, that
    begin the same string: the same run. *)
Lemma run_unique cls (u : string) : forall v a b r1 r2,
  all_in cls u = true -> all_in cls v = true ->
  cls a = false -> cls b = false ->
  u ++ String a r1 = v ++ String b r2 -> a = b.
Proof.
  induction u as [|c u IH]; intros [|d v] a b r1 r2 Hu Hv Ha Hb;
    push_append; cbn [all_in] in *; intros [= ? Heq]; subst.
  - done.
  - apply andb_true_iff in Hv as [Hd _]. congruence.
  - apply andb_true_iff in Hu as [Hc _]. congruence.
  - apply andb_true_iff in Hu as [_ Hu]. apply andb_true_iff in Hv as [_ Hv].
    by apply (IH v a b r1 r2).
Qed.

Lemma blank_not_name c : is_blank c = true -> is_name_char c = false.
Proof.
  unfold is_blank. intros [Hc|Hc]%orb_true_iff;
    apply Ascii.eqb_eq in Hc; by subst.
Qed.

(** A match that begins before a directive ends before it. *)
Lemma match_ends_before_directive c pre blanks name post b1 g rest :
  blanks <> "" -> all_in is_blank blanks = true ->
  all_in is_blank b1 = true -> all_in is_name_char g = true ->
  String c pre ++ directive blanks name ++ post = directive b1 g ++ rest ->
  exists pre',
    rest = pre' ++ directive blanks name ++ post /\
    String.length pre' < String.length (String c pre).
Proof.
  intros Hb1 Hb2 Hb1' Hg Heq.
  destruct blanks as [|b0 blanks]; [done|]. clear Hb1.
  cbn [all_in] in Hb2. apply andb_true_iff in Hb2 as [Hb0 Hb2].
  unfold directive in *. rewrite !append_assoc in Heq.
  set (tail := blanks ++ "'" ++ name ++ "'" ++ post) in *.
  set (Dp := "INCLUDE" ++ String b0 blanks ++ "'" ++ name ++ "'" ++ post).
  assert (HDp : Dp = String "I" (String "N" (String "C" (String "L"
                  (String "U" (String "D" (String "E" (String b0 tail))))))))
    by reflexivity.
  change (String c pre ++ Dp = "INCLUDE" ++ b1 ++ "'" ++ g ++ "'" ++ rest) in Heq.
  apply append_eq_append in Heq as [(k & Hk & HD)|(c1 & k1 & Hpre & Heq)].
  { exfalso. rewrite HDp in HD.
    push_append in Hk. injection Hk as <- Hk.
    do 6 (destruct pre as [|? pre]; push_append in Hk;
          [rewrite <- Hk in HD; push_append in HD; discriminate HD|
           injection Hk as <- Hk]).
    destruct pre as [|? pre]; push_append in Hk; [|discriminate Hk].
    rewrite <- Hk in HD. push_append in HD.
    destruct b1 as [|b b1]; push_append in HD; [discriminate HD|].
    injection HD as <- _. cbn [all_in] in Hb1'. done. }
  apply append_eq_append in Heq as [(k2 & Hk2 & HQ)|(c2 & k2 & Hb & HD)].
  2: { exfalso. rewrite Hb, all_in_append in Hb1'.
       apply andb_true_iff in Hb1' as [_ Hc2]. cbn [all_in] in Hc2.
       apply andb_true_iff in Hc2 as [Hc2 _].
       rewrite HDp in HD. injection HD as <- _. done. }
  destruct k2 as [|c3 k2]; [by rewrite HDp in HQ|].
  push_append in HQ. injection HQ as <- HQ.
  apply append_eq_append in HQ as [(k4 & Hk4 & HQ)|(c5 & k5 & Hg' & HD)].
  2: { exfalso. rewrite Hg', all_in_append in Hg.
       apply andb_true_iff in Hg as [_ Hk5].
       assert (Hq : "'"%char = b0).
       { apply (run_unique is_name_char (String c5 k5) "INCLUDE" _ _ rest tail);
           try done.
         by apply blank_not_name. }
       subst b0. done. }
  destruct k4 as [|c6 k4]; [by rewrite HDp in HQ|].
  push_append in HQ. injection HQ as <- HQ.
  exists k4. split; [rewrite HQ; unfold Dp; by rewrite !append_assoc|].
  rewrite Hpre, Hk2, Hk4.
  repeat (rewrite !length_append || cbn [String.length]). lia.
Qed.

(** Wherever a directive of the form the pattern describes stands in the
    content, [findall] returns its file name. *)
Lemma findall_finds_directive blanks name post :
  blanks <> "" -> all_in is_blank blanks = true ->
  name <> "" -> all_in is_name_char name = true ->
  forall pre, name ∈ findall include_re (pre ++ directive blanks name ++ post).
Proof.
  intros Hb1 Hb2 Hn1 Hn2 pre.
  remember (String.length pre) as n eqn:Hn.
  revert pre Hn. induction (lt_wf n) as [n _ IH]. intros pre ->.
  destruct pre as [|c pre].
  - push_append.
    rewrite (findall_at_match _ name post) by by apply match_here_directive.
    by left.
  - destruct (match_here include_re (String c pre ++ directive blanks name ++ post) "")
      as [[g rest]|] eqn:Hm.
    + rewrite (findall_at_match _ _ _ Hm). right.
      apply match_here_sound in Hm as (b1 & _ & Hb1' & _ & Hg & Heq).
      destruct (match_ends_before_directive _ _ _ _ _ _ _ _ Hb1 Hb2 Hb1' Hg Heq)
        as (pre' & -> & Hlen).
      by apply (IH (String.length pre')).
    + push_append. rewrite findall_step. push_append in Hm. rewrite Hm.
      apply (IH (String.length pre)); [simpl; lia|done].
Qed.

End ReFacts.

(** ** The order of strings and of the sorted tuples *)

Section Order.

Lemma ascii_compare_lt_trans a b c :
  Ascii.compare a b = Lt -> Ascii.compare b c = Lt -> Ascii.compare a c = Lt.
Proof.
  unfold Ascii.compare. rewrite !N.compare_lt_iff. lia.
Qed.

Lemma compare_refl s : String.compare s s = Eq.
Proof.
  induction s as [|a s IH]; simpl; [done|].
  unfold Ascii.compare. by rewrite N.compare_refl.
Qed.

Lemma compare_lt_trans s1 : forall s2 s3,
  String.compare s1 s2 = Lt -> String.compare s2 s3 = Lt ->
  String.compare s1 s3 = Lt.
Proof.
  induction s1 as [|a s1 IH]; intros [|b s2] [|c s3]; simpl; try done.
  destruct (Ascii.compare a b) eqn:Hab; try done;
    destruct (Ascii.compare b c) eqn:Hbc; try done; intros H12 H23.
  - apply Ascii.compare_eq_iff in Hab, Hbc. subst.
    unfold Ascii.compare. rewrite N.compare_refl. eauto.
  - apply Ascii.compare_eq_iff in Hab. subst. by rewrite Hbc.
  - apply Ascii.compare_eq_iff in Hbc. subst. by rewrite Hab.
  - by rewrite (ascii_compare_lt_trans a b c).
Qed.

Lemma leb_spec s1 s2 :
  String.leb s1 s2 = true <-> String.compare s1 s2 = Lt \/ s1 = s2.
Proof.
  unfold String.leb. split.
  - destruct (String.compare s1 s2) eqn:E; intros; try done.
    + right. by apply String.compare_eq_iff.
    + by left.
  - intros [->| ->]; [done|]. by rewrite compare_refl.
Qed.

Lemma leb_trans s1 s2 s3 :
  String.leb s1 s2 = true -> String.leb s2 s3 = true -> String.leb s1 s3 = true.
Proof.
  rewrite !leb_spec. intros [H12| ->] [H23| ->]; eauto using compare_lt_trans.
Qed.

#[global] Instance tuple_le_total : Total tuple_le.
Proof.
  intros [k1 n1] [k2 n2]. unfold tuple_le, tuple_leb, node_leb. simpl.
  rewrite (String.compare_antisym k2 k1).
  destruct (String.compare k1 k2); simpl; auto using String.leb_total.
Qed.

#[global] Instance tuple_le_trans : Transitive tuple_le.
Proof.
  intros [k1 n1] [k2 n2] [k3 n3]. unfold tuple_le, tuple_leb, node_leb, str. simpl.
  destruct (String.compare k1 k2) eqn:H12; try done;
    destruct (String.compare k2 k3) eqn:H23; try done.
  - apply String.compare_eq_iff in H12, H23. subst.
    rewrite compare_refl. apply leb_trans.
  - apply String.compare_eq_iff in H12. subst. by rewrite H23.
  - apply String.compare_eq_iff in H23. subst. by rewrite H12.
  - by rewrite (compare_lt_trans k1 k2 k3).
Qed.

#[global] Instance tuple_le_antisym : AntiSymm (=) tuple_le.
Proof.
  intros [k1 n1] [k2 n2]. unfold tuple_le, tuple_leb, node_leb, str. simpl.
  rewrite (String.compare_antisym k2 k1).
  destruct (String.compare k1 k2) eqn:H12; simpl; try done.
  apply String.compare_eq_iff in H12. subst.
  intros H1 H2. f_equal. by apply String.leb_antisym.
Qed.

Lemma tuple_le_key p q : tuple_le p q -> String.leb p.1 q.1 = true.
Proof.
  unfold tuple_le, tuple_leb, String.leb.
  by destruct (String.compare p.1 q.1).
Qed.

Lemma st_Permutation l Metric : st l Metric ≡ₚ l.
Proof.
  unfold st. rewrite merge_sort_Permutation, map_map. simpl.
  by rewrite map_id.
Qed.

Lemma st_sorted l Metric : Sorted (key_le Metric) (st l Metric).
Proof.
  unfold st.
  assert (Hs : Sorted tuple_le (merge_sort tuple_le (map (fun e => (Metric e, e)) l)))
    by apply (Sorted_merge_sort _).
  assert (Hk : Forall (fun p => p.1 = Metric p.2)
                 (merge_sort tuple_le (map (fun e => (Metric e, e)) l))).
  { rewrite merge_sort_Permutation. by apply Forall_map, Forall_true. }
  induction Hs as [|p ps Hs IH Hd]; simpl; [constructor|].
  inversion Hk as [|?? Hp Hps]; subst.
  constructor; [by apply IH|].
  destruct Hd as [|q qs Hpq]; simpl; constructor.
  inversion Hps as [|?? Hq _]; subst.
  unfold key_le. rewrite <- Hp, <- Hq. by apply tuple_le_key.
Qed.

Lemma st_order_independent l1 l2 Metric :
  l1 ≡ₚ l2 -> st l1 Metric = st l2 Metric.
Proof.
  intros Hperm. unfold st. f_equal.
  apply (Sorted_unique tuple_le); try apply (Sorted_merge_sort _).
  rewrite !merge_sort_Permutation. by apply Permutation_map.
Qed.

End Order.

(** ** The order of the nodes in a sorted list *)

Section OrderMore.

#[global] Instance node_order_trans Metric : Transitive (node_order Metric).
Proof. intros a b c. unfold node_order. apply tuple_le_trans. Qed.

#[global] Instance node_order_antisym Metric : AntiSymm (=) (node_order Metric).
Proof.
  intros a b Hab Hba. unfold node_order in *.
  by injection (tuple_le_antisym _ _ Hab Hba).
Qed.

Lemma node_order_key Metric a b :
  node_order Metric a b -> key_le Metric a b.
Proof. intros H. by apply tuple_le_key in H. Qed.

Lemma st_sorted_nodes l Metric : StronglySorted (node_order Metric) (st l Metric).
Proof.
  apply Sorted_StronglySorted; [apply _|]. unfold st.
  assert (Hs : Sorted tuple_le (merge_sort tuple_le (map (fun e => (Metric e, e)) l)))
    by apply (Sorted_merge_sort _).
  assert (Hk : Forall (fun p => p = (Metric p.2, p.2))
                 (merge_sort tuple_le (map (fun e => (Metric e, e)) l))).
  { rewrite merge_sort_Permutation. by apply Forall_map, Forall_true. }
  induction Hs as [|p ps Hs IH Hd]; simpl; [constructor|].
  inversion Hk as [|?? Hp Hps]; subst.
  constructor; [by apply IH|].
  destruct Hd as [|q qs Hpq]; simpl; constructor.
  inversion Hps as [|?? Hq _]; subst.
  unfold node_order. by rewrite <- Hp, <- Hq.
Qed.

(** In a list sorted by an antisymmetric order, the copies of an element
    stand side by side. *)
Lemma sorted_copies_adjacent {A} (R : relation A) `{!AntiSymm (=) R}
    `{!EqDecision A} (l : list A) (n : A) :
  StronglySorted R l ->
  exists (l1 l2 : list A) (k : nat),
    l = (l1 ++ replicate k n ++ l2)%list /\ (n ∉ l1) /\ (n ∉ l2).
Proof.
  induction 1 as [|x l Hl IH Hx].
  - exists [], [], 0. split; [done|]. split; apply not_elem_of_nil.
  - destruct IH as (l1 & l2 & k & -> & Hn1 & Hn2).
    destruct (decide (x = n)) as [->|Hne].
    + destruct k as [|k].
      * exists [], (l1 ++ l2)%list, 1. simpl in *. split; [done|].
        split; [apply not_elem_of_nil|]. rewrite elem_of_app. tauto.
      * destruct l1 as [|y l1].
        -- exists [], l2, (S (S k)). split; [done|].
           split; [apply not_elem_of_nil|done].
        -- exfalso. assert (Hyn : y = n).
           { apply Forall_cons in Hx as [Hny _].
             apply (anti_symm R); [|done].
             apply StronglySorted_cons in Hl as [Hy _].
             rewrite Forall_forall in Hy. apply Hy.
             rewrite elem_of_app. right. by left. }
           apply Hn1. rewrite Hyn. left.
    + exists (x :: l1), l2, k. split; [done|]. split; [|done].
      rewrite not_elem_of_cons. split; [congruence|done].
Qed.

Lemma copies_count {A} `{!EqDecision A} (l1 l2 : list A) (k : nat) (n : A) :
  n ∉ l1 -> n ∉ l2 ->
  List.length (filter (fun x => x = n) (l1 ++ replicate k n ++ l2)%list) = k.
Proof.
  intros Hn1 Hn2. rewrite !filter_app, !length_app.
  assert (Hnone : forall l : list A, n ∉ l -> filter (fun x => x = n) l = []).
  { intros l Hl. induction l as [|y l IH]; [done|].
    apply not_elem_of_cons in Hl as [Hy Hl]. rewrite filter_cons.
    destruct (decide (y = n)); [congruence|]. by apply IH. }
  rewrite (Hnone l1), (Hnone l2) by done. simpl.
  assert (Hall : filter (fun x => x = n) (replicate k n) = replicate k n).
  { induction k as [|k IH]; [done|]. simpl. rewrite filter_cons.
    destruct (decide (n = n)); [|done]. by rewrite IH. }
  rewrite Hall, length_replicate. lia.
Qed.

(** The relation [String.leb _ _ = true], under which the keys of a sorted
    list are sorted. *)
Lemma keys_sorted_unique (ks1 ks2 : list string) :
  Sorted (key_le (fun k => k)) ks1 -> Sorted (key_le (fun k => k)) ks2 ->
  ks1 ≡ₚ ks2 -> ks1 = ks2.
Proof.
  apply Sorted_unique_strong.
  - intros a b c. unfold key_le. apply leb_trans.
  - intros a b _ _. unfold key_le. apply String.leb_antisym.
Qed.

Lemma st_keys_sorted l Metric :
  Sorted (key_le (fun k => k)) (map Metric (st l Metric)).
Proof.
  apply (Sorted_fmap _ (key_le Metric)); [done|apply st_sorted].
Qed.

Lemma st_idempotent l Metric : st (st l Metric) Metric = st l Metric.
Proof. apply st_order_independent, st_Permutation. Qed.

End OrderMore.

(** ** What one call of [scan] does *)

Section ScanFacts.

Context {nodefs : NodeFS}.

Lemma resolve_includes_spec fs node paths incs : forall acc w,
  resolve_includes fs node paths incs acc w =
  (Ok (acc ++ resolved fs paths incs)%list,
   mkWorld (nodes_of w) (f77path_of w)
     (warnings w ++ map (no_dependency_warning node) (unresolved fs paths incs))%list).
Proof.
  induction incs as [|inc incs IH]; intros acc w.
  - simpl. unfold ret. rewrite !app_nil_r. by destruct w.
  - unfold resolved, unresolved.
    rewrite filter_cons. simpl.
    destruct (find_file fs inc paths) as [n|] eqn:E.
    + rewrite IH. destruct (decide (Some n = None)); [done|].
      by rewrite <- app_assoc.
    + unfold bind, warn. rewrite IH. simpl.
      destruct (decide (@None string = None)); [|done].
      simpl. by rewrite <- app_assoc.
Qed.

Lemma with_f77path_id target p w :
  f77path_of w !! target = Some p -> with_f77path target p w = w.
Proof.
  intros H. unfold with_f77path. rewrite insert_id by done. by destruct w.
Qed.

Lemma scan_f77path_spec env target w :
  scan_f77path env target w =
  (Ok (search_path env target w),
   with_f77path target (search_path env target w) w).
Proof.
  unfold scan_f77path, search_path, f77path_of_env, bind, hasattr_f77path,
    getattr_f77path.
  destruct (f77path_of w !! target) as [p|] eqn:Ht; simpl.
  - rewrite Ht. by rewrite with_f77path_id.
  - unfold try_except_KeyError, bind, getitem.
    destruct (env !! "F77PATH") as [v|] eqn:Hv; simpl;
      by rewrite lookup_insert_eq.
Qed.

Lemma scan_nodes_hit node fs p l w :
  found_includes (attrs w (rfile node)) !! p = Some l ->
  scan_nodes node fs p w = (Ok l, w).
Proof.
  intros Hhit. unfold scan_nodes, try_except_KeyError, get_found_includes, getitem.
  by rewrite Hhit.
Qed.

Lemma scan_nodes_miss node fs p w :
  found_includes (attrs w (rfile node)) !! p = None ->
  scan_nodes node fs p w =
  (Ok (miss_nodes fs w (rfile node) p), miss_world fs w (rfile node) p).
Proof.
  intros Hmiss.
  unfold scan_nodes, try_except_KeyError, get_found_includes, getitem.
  rewrite Hmiss. simpl.
  unfold miss_world, miss_warnings, miss_nodes, raw_includes, bind.
  destruct (rexists fs (rfile node)); simpl.
  - unfold get_includes.
    destruct (includes (attrs w (rfile node))) as [incs|] eqn:Hinc; simpl.
    + rewrite resolve_includes_spec. simpl.
      unfold set_found_includes, ret. simpl.
      unfold attrs in *. simpl. by rewrite Hinc.
    + unfold set_includes. rewrite resolve_includes_spec. simpl.
      unfold set_found_includes, ret. simpl.
      unfold attrs in *. simpl. rewrite lookup_insert_eq. simpl.
      by rewrite insert_insert_eq.
  - unfold ret, set_found_includes. simpl. by rewrite app_nil_r.
Qed.

Lemma scan_hit node env target fs w l :
  found_includes (attrs w (rfile node)) !! search_path env target w = Some l ->
  scan node env target fs w =
  (Ok (st l normalize), with_f77path target (search_path env target w) w).
Proof.
  intros Hhit. unfold scan, bind. rewrite scan_f77path_spec.
  by rewrite (scan_nodes_hit _ _ _ l).
Qed.

Lemma scan_miss node env target fs w :
  found_includes (attrs w (rfile node)) !! search_path env target w = None ->
  scan node env target fs w =
  (Ok (st (miss_nodes fs w (rfile node) (search_path env target w)) normalize),
   with_f77path target (search_path env target w)
     (miss_world fs w (rfile node) (search_path env target w))).
Proof.
  intros Hmiss. unfold scan, bind. rewrite scan_f77path_spec.
  by rewrite scan_nodes_miss.
Qed.

Lemma search_path_cached env target w p :
  f77path_of w !! target = Some p -> search_path env target w = p.
Proof. intros Hp. unfold search_path. by rewrite Hp. Qed.

(** Once [target.f77path] and the entry of [found_includes] under it are
    there, [scan] answers from them and changes nothing, whatever the
    environment and the storage now are. *)
Lemma scan_served_from_cache node env target fs w p l :
  f77path_of w !! target = Some p ->
  found_includes (attrs w (rfile node)) !! p = Some l ->
  scan node env target fs w = (Ok (st l normalize), w).
Proof.
  intros Hp Hl. rewrite (scan_hit _ _ _ _ _ l).
  - rewrite (search_path_cached _ _ _ p) by done. by rewrite with_f77path_id.
  - by rewrite (search_path_cached _ _ _ p).
Qed.

(** Every call of [scan] returns normally, and leaves both cache entries
    behind: [target.f77path] and [found_includes] under it. *)
Lemma scan_post node env target fs w :
  exists l w1,
    scan node env target fs w = (Ok (st l normalize), w1) /\
    f77path_of w1 !! target = Some (search_path env target w) /\
    found_includes (attrs w1 (rfile node)) !! search_path env target w = Some l.
Proof.
  destruct (found_includes (attrs w (rfile node)) !! search_path env target w)
    as [l|] eqn:Hl.
  - exists l, (with_f77path target (search_path env target w) w).
    split; [by apply scan_hit|]. split; [apply lookup_insert_eq|done].
  - eexists _, _. split; [by apply scan_miss|].
    split; [apply lookup_insert_eq|].
    unfold with_f77path, miss_world, attrs. simpl.
    rewrite lookup_insert_eq. simpl. apply lookup_insert_eq.
Qed.

(** C9: scanning the same node twice with the same environment, target and
    storage returns the same list in the same order; the second call finds
    the nodes in [node.found_includes] under the search-path tuple, sorts
    them as the first did, and leaves the state as it was.  The entry is
    keyed by the tuple alone: a scan for another target whose search path is
    the same tuple returns the same list. *)
Theorem scan_twice_same node env target fs w :
  exists l,
    let w1 := (scan node env target fs w).2 in
    (scan node env target fs w).1 = Ok (st l normalize) /\
    found_includes (attrs w1 (rfile node)) !! search_path env target w1 = Some l /\
    scan node env target fs w1 = (Ok (st l normalize), w1) /\
    (forall env' target' fs',
       search_path env' target' w1 = search_path env target w1 ->
       (scan node env' target' fs' w1).1 = Ok (st l normalize)).
Proof.
  destruct (scan_post node env target fs w) as (l & w1 & Hscan & Hp & Hl).
  exists l. rewrite Hscan. simpl.
  rewrite (search_path_cached _ _ _ _ Hp).
  split; [done|]. split; [done|]. split.
  - by apply (scan_served_from_cache _ _ _ _ _ (search_path env target w)).
  - intros env' target' fs' Hsame.
    rewrite (scan_hit _ _ _ _ _ l); [done|]. by rewrite Hsame.
Qed.

(** C7, as the code has it: [scan] removes no duplicates.  On a miss of
    [found_includes] for a node on storage, the returned list is a
    rearrangement of the nodes resolved for the raw references, one entry for
    each reference that resolves, sorted by the key: a node that [k]
    references resolve to is there [k] times, and its copies stand side by
    side. *)
Theorem scan_one_entry_per_reference node env target fs w :
  found_includes (attrs w (rfile node)) !! search_path env target w = None ->
  rexists fs (rfile node) = true ->
  let found := resolved fs (get_dir (rfile node) :: search_path env target w)
                 (raw_includes fs w (rfile node)) in
  exists l,
    (scan node env target fs w).1 = Ok l /\
    l ≡ₚ found /\
    Sorted (key_le normalize) l /\
    (forall n, exists l1 l2 : list Node,
       l = (l1 ++ replicate (List.length (filter (fun x => x = n) found)) n
               ++ l2)%list /\
       (n ∉ l1) /\ (n ∉ l2)).
Proof.
  intros Hmiss Hex found. rewrite scan_miss by done. simpl.
  eexists. split; [done|]. unfold miss_nodes. rewrite Hex. fold found.
  split; [apply st_Permutation|]. split; [apply st_sorted|].
  intros n.
  destruct (sorted_copies_adjacent (node_order normalize) (st found normalize) n
              (st_sorted_nodes found normalize))
    as (l1 & l2 & k & Hl & Hn1 & Hn2).
  assert (Hk : k = List.length (filter (fun x => x = n) found)).
  { rewrite <- (copies_count l1 l2 k n Hn1 Hn2), <- Hl.
    apply Permutation_length. by rewrite st_Permutation. }
  exists l1, l2. split; [|done]. by rewrite Hl, Hk.
Qed.

(** C5, as the code has it: on a miss of [found_includes] for a node on
    storage, [scan] returns normally with the nodes of the references that
    resolve, and gives one [DependencyWarning] to the warning channel for
    each reference that does not, in the order of the references; the
    message holds the text of the reference and the including node, and
    nothing of the search path. *)
Theorem scan_warns_once_per_unresolved node env target fs w :
  found_includes (attrs w (rfile node)) !! search_path env target w = None ->
  rexists fs (rfile node) = true ->
  let p := get_dir (rfile node) :: search_path env target w in
  let incs := raw_includes fs w (rfile node) in
  (scan node env target fs w).1 =
    Ok (st (omap (fun include => find_file fs include p) incs) normalize) /\
  warnings (scan node env target fs w).2 =
    (warnings w ++
     map (fun include =>
            mkWarning DependencyWarning
              ("No dependency generated for file: " ++ include ++
               " (included from: " ++ str (rfile node) ++ ") -- file not found"))
         (filter (fun include => find_file fs include p = None) incs))%list.
Proof.
  intros Hmiss Hex. rewrite scan_miss by done. simpl.
  unfold miss_nodes, miss_warnings. rewrite Hex. done.
Qed.

Lemma find_file_first_match fs x before d after :
  (forall d', d' ∈ before -> rexists fs (File x d') = false) ->
  rexists fs (File x d) = true ->
  find_file fs x (before ++ d :: after) = Some (File x d).
Proof.
  induction before as [|b before IH]; intros Hbefore Hd; simpl.
  - by rewrite Hd.
  - rewrite (Hbefore b) by left. apply IH; [|done].
    intros d' Hd'. apply Hbefore. by right.
Qed.

Lemma elem_of_resolved fs paths incs x n :
  x ∈ incs -> find_file fs x paths = Some n -> n ∈ resolved fs paths incs.
Proof. intros Hx Hn. unfold resolved. apply list_elem_of_omap. eauto. Qed.

(** C3: a reference [x] of the node is looked up in the directory of the
    node first and then in the directories of the search path in their
    order, and resolves to the file in the first of these directories that
    has one of that name: when no directory in [before] has [x] and [d]
    has, the node found is [File x d] and it is in the list returned. *)
Theorem scan_search_order node env target fs w x before d after :
  found_includes (attrs w (rfile node)) !! search_path env target w = None ->
  rexists fs (rfile node) = true ->
  x ∈ raw_includes fs w (rfile node) ->
  get_dir (rfile node) :: search_path env target w = (before ++ d :: after)%list ->
  (forall d', d' ∈ before -> rexists fs (File x d') = false) ->
  rexists fs (File x d) = true ->
  find_file fs x (get_dir (rfile node) :: search_path env target w) = Some (File x d) /\
  exists l, (scan node env target fs w).1 = Ok l /\ File x d ∈ l.
Proof.
  intros Hmiss Hex Hx Hdirs Hbefore Hd.
  assert (Hfound : find_file fs x (get_dir (rfile node) :: search_path env target w)
                   = Some (File x d)).
  { rewrite Hdirs. by apply find_file_first_match. }
  split; [done|]. rewrite scan_miss by done. simpl.
  eexists. split; [done|]. rewrite st_Permutation.
  unfold miss_nodes. rewrite Hex. by apply (elem_of_resolved _ _ _ x).
Qed.

(** A scan under [env] keeps [target.f77path] the path of [env]. *)
Lemma scan_keeps_f77path_from_env node env target fs w :
  f77path_from_env env target w ->
  f77path_from_env env target (scan node env target fs w).2.
Proof.
  intros Hw p.
  destruct (scan_post node env target fs w) as (l & w1 & Hscan & Ht & _).
  rewrite Hscan. simpl. rewrite Ht. intros [= <-].
  unfold search_path.
  destruct (f77path_of w !! target) as [q|] eqn:Hq; [by apply Hw|done].
Qed.


Lemma st_nil Metric : st [] Metric = [].
Proof. reflexivity. Qed.

(** C6, as the code has it: for a node that is not on storage and has no
    entry in [found_includes] under the search path, [scan] returns the empty
    list normally and stores it under that path.  From then on a scan with
    the same target returns the stored empty list, whatever the storage has
    become; the dependencies of the node are found by a later scan only when
    the entry is no longer there. *)
Theorem scan_missing_node_cached node env target fs w :
  rexists fs (rfile node) = false ->
  found_includes (attrs w (rfile node)) !! search_path env target w = None ->
  let w1 := (scan node env target fs w).2 in
  (scan node env target fs w).1 = Ok [] /\
  found_includes (attrs w1 (rfile node)) !! search_path env target w = Some [] /\
  (forall env' fs', scan node env' target fs' w1 = (Ok [], w1)) /\
  (forall fs' w2,
     found_includes (attrs w2 (rfile node)) !! search_path env target w2 = None ->
     rexists fs' (rfile node) = true ->
     (scan node env target fs' w2).1 =
       Ok (st (resolved fs' (get_dir (rfile node) :: search_path env target w2)
                 (raw_includes fs' w2 (rfile node))) normalize)).
Proof.
  intros Hex Hmiss.
  destruct (scan_post node env target fs w) as (l & w1 & Hscan & Ht & Hl).
  assert (l = []) as ->.
  { rewrite scan_miss in Hscan by done. inversion Hscan as [[Hst Hw1]].
    rewrite <- Hw1 in Hl. unfold with_f77path, miss_world, attrs in Hl.
    simpl in Hl. rewrite lookup_insert_eq in Hl. simpl in Hl.
    rewrite lookup_insert_eq in Hl. inversion Hl as [Hnodes].
    unfold miss_nodes. by rewrite Hex. }
  rewrite Hscan. simpl. rewrite st_nil. repeat split; try done.
  - intros env' fs'.
    by rewrite (scan_served_from_cache _ _ _ _ _ _ [] Ht Hl).
  - intros fs' w2 Hmiss2 Hex2. rewrite scan_miss by done. simpl.
    unfold miss_nodes. by rewrite Hex2.
Qed.

(** C2, as the code has it: [scan] looks at no content signature.  In every
    state: after a scan, a later scan of the node for the same target
    returns the same list from [found_includes] and changes nothing,
    whatever the content and the environment have become; a scan that
    resolves references while [node.includes] is not [None] resolves that
    cached list, not what the content holds now; and [node.includes] is set
    from the content exactly when the node is on storage, [node.includes] is
    [None] and [found_includes] has no entry for the search path, every
    other call leaving the [includes] of every node as it was. *)
Theorem scan_reuses_raw_references node env target fs w :
  let r := (scan node env target fs w).1 in
  let w1 := (scan node env target fs w).2 in
  let miss :=
    found_includes (attrs w (rfile node)) !! search_path env target w = None in
  (forall env' fs', scan node env' target fs' w1 = (r, w1)) /\
  (forall incs,
     includes (attrs w (rfile node)) = Some incs ->
     miss -> rexists fs (rfile node) = true ->
     r = Ok (st (resolved fs (get_dir (rfile node) :: search_path env target w)
                   incs) normalize)) /\
  (includes (attrs w (rfile node)) = None ->
   miss -> rexists fs (rfile node) = true ->
   includes (attrs w1 (rfile node)) =
     Some (Re.findall Re.include_re (get_contents fs (rfile node)))) /\
  (forall n,
     includes (attrs w1 n) <> includes (attrs w n) ->
     n = rfile node /\ includes (attrs w n) = None /\
     miss /\ rexists fs (rfile node) = true).
Proof.
  intros r w1 miss. subst r w1 miss.
  destruct (scan_post node env target fs w) as (l & w1 & Hscan & Ht & Hl).
  split.
  { intros env' fs'. rewrite Hscan. simpl.
    by rewrite (scan_served_from_cache _ _ _ _ _ _ l Ht Hl). }
  clear l w1 Hscan Ht Hl.
  destruct (found_includes (attrs w (rfile node)) !! search_path env target w)
    as [l0|] eqn:Hl0.
  - rewrite (scan_hit _ _ _ _ _ l0) by done. simpl.
    split; [done|]. split; [done|]. intros n Hn. by destruct Hn.
  - rewrite scan_miss by done. simpl. split; [|split].
    + intros incs Hinc _ Hex. unfold miss_nodes, raw_includes.
      by rewrite Hex, Hinc.
    + intros Hinc _ Hex. unfold with_f77path, miss_world, attrs. simpl.
      rewrite lookup_insert_eq. simpl. fold (attrs w (rfile node)).
      unfold raw_includes. by rewrite Hex, Hinc.
    + intros n Hn. unfold with_f77path, miss_world in Hn.
      unfold attrs at 1 in Hn. simpl in Hn.
      destruct (decide (rfile node = n)) as [<-|Hne].
      * rewrite lookup_insert_eq in Hn. simpl in Hn.
        destruct (rexists fs (rfile node)) eqn:Hex; [|done].
        unfold raw_includes in Hn.
        destruct (includes (attrs w (rfile node))) as [incs|] eqn:Hinc;
          [done|]. done.
      * rewrite lookup_insert_ne in Hn by done. by destruct Hn.
Qed.

End ScanFacts.

(** ** The order of the list [scan] returns *)

Section SortedScan.

Context {nodefs : NodeFS}.

(** C4: with [_my_normcase] the key of the spec, the list [scan] returns is
    a rearrangement of the nodes found for the search path (on a miss, the
    nodes the references resolve to), sorted by the case-folded,
    separator-normalized path of each node, two nodes standing in the order
    of their tuples whatever else is in the list.  So the list is fixed by
    the nodes alone: a scan that finds the same nodes in any other order
    returns the same list, and a scan that finds nodes whose normalized
    paths are the same, written in another case or with other separators,
    returns a list with the same normalized paths in the same places. *)
Theorem scan_sorted_by_key node env target fs w :
  let F := folding nodefs in
  let key := fun n : Node => spec_normcase (str n) in
  exists nodes l,
    (@scan F node env target fs w).1 = Ok l /\
    found_includes (attrs (@scan F node env target fs w).2 (rfile node))
      !! search_path env target w = Some nodes /\
    (found_includes (attrs w (rfile node)) !! search_path env target w = None ->
     rexists fs (rfile node) = true ->
     nodes = resolved fs (get_dir (rfile node) :: search_path env target w)
               (raw_includes fs w (rfile node))) /\
    l ≡ₚ nodes /\
    Sorted (fun a b => String.leb (key a) (key b) = true) l /\
    StronglySorted (node_order key) l /\
    (forall node2 env2 target2 fs2 w2 l2,
       (@scan F node2 env2 target2 fs2 w2).1 = Ok l2 -> l2 ≡ₚ l -> l2 = l) /\
    (forall node2 env2 target2 fs2 w2 l2,
       (@scan F node2 env2 target2 fs2 w2).1 = Ok l2 ->
       map key l2 ≡ₚ map key l -> map key l2 = map key l).
Proof.
  intros F key.
  destruct (scan_post (nodefs := F) node env target fs w) as (nodes & w1 & Hscan & _ & Hl).
  exists nodes, (st nodes key). rewrite Hscan. simpl.
  split; [done|]. split; [exact Hl|]. split.
  { intros Hmiss Hex. rewrite (scan_miss (nodefs := F)) in Hscan by exact Hmiss.
    injection Hscan as _ Hw1. rewrite <- Hw1 in Hl.
    unfold with_f77path, miss_world, attrs in Hl. simpl in Hl.
    rewrite lookup_insert_eq in Hl. simpl in Hl.
    rewrite lookup_insert_eq in Hl. injection Hl as <-.
    unfold miss_nodes. by rewrite Hex. }
  split; [apply st_Permutation|]. split; [apply (st_sorted nodes key)|].
  split; [apply st_sorted_nodes|]. split.
  - intros node2 env2 target2 fs2 w2 l2 Hl2 Hperm.
    destruct (scan_post (nodefs := F) node2 env2 target2 fs2 w2) as (n2 & w2' & Hs2 & _ & _).
    rewrite Hs2 in Hl2. simpl in Hl2. injection Hl2 as <-.
    change (@normalize F) with key in *.
    rewrite <- (st_idempotent n2 key), <- (st_idempotent nodes key).
    by apply st_order_independent.
  - intros node2 env2 target2 fs2 w2 l2 Hl2 Hperm.
    destruct (scan_post (nodefs := F) node2 env2 target2 fs2 w2) as (n2 & w2' & Hs2 & _ & _).
    rewrite Hs2 in Hl2. simpl in Hl2. injection Hl2 as <-.
    change (@normalize F) with key in *.
    apply keys_sorted_unique; [apply st_keys_sorted..|done].
Qed.

End SortedScan.

(** ** The recursive scanner *)

Section RecursiveFacts.

Context {nodefs : NodeFS}.

Lemma find_file_on_storage fs x paths n :
  find_file fs x paths = Some n -> is_Some (fs !! n).
Proof.
  induction paths as [|d paths IH]; simpl; [done|].
  destruct (rexists fs (File x d)) eqn:Hex; [|done].
  intros [= <-]. unfold rexists in Hex. by apply bool_decide_eq_true in Hex.
Qed.

Lemma resolved_on_storage fs paths incs n :
  n ∈ resolved fs paths incs -> is_Some (fs !! n).
Proof.
  unfold resolved. rewrite list_elem_of_omap.
  intros (x & _ & Hx). by apply (find_file_on_storage _ x paths).
Qed.

Lemma miss_nodes_on_storage fs w node p n :
  n ∈ miss_nodes fs w node p -> is_Some (fs !! n).
Proof.
  unfold miss_nodes. destruct (rexists fs node).
  - apply resolved_on_storage.
  - by intros ?%elem_of_nil.
Qed.

Lemma cached_nodes_spec w : cached_within (cached_nodes w) w.
Proof.
  intros n p l x Hl Hx. unfold cached_nodes, attrs in *.
  destruct (nodes_of w !! n) as [a|] eqn:Hn; simpl in Hl;
    [|by rewrite lookup_empty in Hl].
  apply elem_of_union_list. eexists. split.
  - apply list_elem_of_fmap. exists a. split; [done|].
    apply list_elem_of_fmap. exists (n, a). split; [done|].
    by apply elem_of_map_to_list.
  - apply elem_of_union_list. exists (list_to_set l). split.
    + apply list_elem_of_fmap. exists (p, l). split; [done|].
      by apply elem_of_map_to_list.
    + by apply elem_of_list_to_set.
Qed.

(** [scan] returns nodes of [K] and keeps the caches within [K], when [K]
    holds the files on storage and what the caches held. *)
Lemma scan_within K node env target fs w d w1 :
  dom fs ⊆ K -> cached_within K w ->
  scan node env target fs w = (Ok d, w1) ->
  cached_within K w1 /\ (forall x, x ∈ d -> x ∈ K).
Proof.
  intros HK Hinv.
  assert (Hmn : forall x p, x ∈ miss_nodes fs w (rfile node) p -> x ∈ K).
  { intros x p Hx. apply HK, elem_of_dom. by apply miss_nodes_on_storage in Hx. }
  destruct (found_includes (attrs w (rfile node)) !! search_path env target w)
    as [l|] eqn:Hl.
  - rewrite (scan_hit _ _ _ _ _ l) by done. intros [= <- <-]. split.
    + exact Hinv.
    + intros x. rewrite st_Permutation. by apply (Hinv _ _ _ _ Hl).
  - rewrite scan_miss by done. intros [= <- <-]. split.
    + intros n p l x. unfold with_f77path, miss_world, attrs. simpl.
      destruct (decide (rfile node = n)) as [<-|Hne].
      * rewrite lookup_insert_eq. simpl.
        destruct (decide (search_path env target w = p)) as [<-|Hp].
        -- rewrite lookup_insert_eq. intros [= <-]. apply Hmn.
        -- rewrite lookup_insert_ne by done. apply Hinv.
      * rewrite lookup_insert_ne by done. apply Hinv.
    + intros x. rewrite st_Permutation. apply Hmn.
Qed.

(** With more fuel than there are nodes to scan and nodes of [K] not yet
    seen, the loop ends; it keeps what [deps] held and adds only nodes that
    were not in [seen], among them the new nodes of the first scan. *)
Lemma Recursive_loop_ends K env target fs fuel :
  forall (todo : list Node) (seen : gset string) (deps : list Node) w,
  dom fs ⊆ K -> cached_within K w ->
  List.length todo + size (K ∖ seen) < fuel ->
  exists deps' w',
    Recursive_loop (fun n => scan n env target fs) fuel todo seen deps w
      = (Ok (Some deps'), w') /\
    (forall x, x ∈ deps -> x ∈ deps') /\
    (forall x, x ∈ deps' -> x ∈ deps \/ x ∉ seen) /\
    (forall n todo' d w1 x,
       todo = n :: todo' -> scan n env target fs w = (Ok d, w1) ->
       x ∈ d -> x ∉ seen -> x ∈ deps').
Proof.
  induction fuel as [|fuel IH]; intros todo seen deps w HK Hinv Hfuel; [lia|].
  destruct todo as [|n todo]; simpl.
  - exists deps, w. unfold ret. repeat split; auto. done.
  - destruct (scan_post n env target fs w) as (l & w1 & Hscan & _ & _).
    unfold bind at 1. rewrite Hscan.
    destruct (scan_within K _ _ _ _ _ _ _ HK Hinv Hscan) as [Hinv1 Hd].
    set (new := remove_dups (filter (fun x => x ∉ seen) (st l normalize))).
    assert (Hnew : forall x, x ∈ new -> (x ∉ seen) /\ (x ∈ K)).
    { intros x. unfold new. rewrite elem_of_remove_dups, list_elem_of_filter.
      intros [Hx1 Hx2]. split; [done|]. by apply Hd. }
    assert (Hsub : list_to_set new ⊆ K ∖ seen).
    { intros x. rewrite elem_of_list_to_set, elem_of_difference.
      intros Hx. destruct (Hnew x Hx). done. }
    assert (Hsize : size (K ∖ (seen ∪ list_to_set new)) + List.length new
                    = size (K ∖ seen)).
    { rewrite <- difference_difference_l_L. rewrite size_difference by done.
      rewrite size_list_to_set by apply NoDup_remove_dups.
      apply subseteq_size in Hsub.
      rewrite size_list_to_set in Hsub by apply NoDup_remove_dups. lia. }
    destruct (IH (todo ++ new)%list (seen ∪ list_to_set new)
                 (deps ++ new)%list w1 HK Hinv1)
      as (deps' & w' & Hloop & Hkeep & Hadd & _).
    { rewrite length_app. simpl in Hfuel. lia. }
    exists deps', w'. split; [exact Hloop|]. split; [|split].
    + intros x Hx. apply Hkeep. apply elem_of_app. by left.
    + intros x Hx. destruct (Hadd x Hx) as [Hin|Hnot].
      * apply elem_of_app in Hin as [Hin|Hin]; [by left|].
        right. by apply Hnew.
      * right. intros Hs. apply Hnot. apply elem_of_union. by left.
    + intros n' todo' d w1' x [= <- <-]. rewrite Hscan. intros [= <- <-] Hx Hs.
      apply Hkeep. apply elem_of_app. right. unfold new.
      rewrite elem_of_remove_dups, list_elem_of_filter. done.
Qed.

(** C8, as the code has it: when the content of [A] includes [B] and the
    content of [B] includes [A], the recursive scan of [A] ends in every
    state, within a number of steps bounded by the files on storage and the
    nodes the caches hold, returns normally, and does not list [A] again:
    the second visit of [A] is where the recursion stops.  [B] is in the
    list when the scan of [A] resolves the references of its content: [A]
    has no [found_includes] entry for the search path and [node.includes] is
    [None].  When an earlier scan left an entry for [A], the list is built
    from the nodes of that entry. *)
Theorem FortranScan_include_cycle A B env target fs w fuel x y :
  A <> B ->
  rexists fs (rfile A) = true ->
  x ∈ Re.findall Re.include_re (get_contents fs (rfile A)) ->
  find_file fs x (get_dir (rfile A) :: search_path env target w) = Some B ->
  rexists fs (rfile B) = true ->
  y ∈ Re.findall Re.include_re (get_contents fs (rfile B)) ->
  find_file fs y (get_dir (rfile B) :: search_path env target w) = Some A ->
  size (dom fs ∪ cached_nodes w) + 2 <= fuel ->
  exists deps w',
    Recursive_scan FortranScan fuel A env target fs w = (Ok (Some deps), w') /\
    (A ∉ deps) /\
    (found_includes (attrs w (rfile A)) !! search_path env target w = None ->
     includes (attrs w (rfile A)) = None -> B ∈ deps) /\
    (forall l n,
       found_includes (attrs w (rfile A)) !! search_path env target w = Some l ->
       n ∈ l -> n <> A -> n ∈ deps).
Proof.
  intros Hne HexA Hx HB _ _ _ Hfuel.
  destruct (Recursive_loop_ends (dom fs ∪ cached_nodes w) env target fs fuel
              [A] {[A]} [] w)
    as (deps & w' & Hloop & _ & Hadd & Hfirst).
  { apply union_subseteq_l. }
  { intros n p l z Hl Hz. apply elem_of_union. right.
    by apply (cached_nodes_spec w n p l). }
  { assert (Hs : size ((dom fs ∪ cached_nodes w) ∖ {[A]})
                 <= size (dom fs ∪ cached_nodes w))
      by (by apply subseteq_size, subseteq_difference_l).
    simpl. lia. }
  exists (st deps normalize), w'. split; [|split; [|split]].
  - unfold Recursive_scan, FortranScan, bind. simpl. by rewrite Hloop.
  - rewrite st_Permutation. intros HA.
    destruct (Hadd A HA) as [Hin|Hnot]; [by apply elem_of_nil in Hin|].
    set_solver.
  - intros Hmiss Hinc. rewrite st_Permutation.
    apply (Hfirst A [] _ _ B eq_refl (scan_miss _ _ _ _ _ Hmiss)).
    + rewrite st_Permutation. unfold miss_nodes, raw_includes.
      rewrite HexA, Hinc. by apply (elem_of_resolved _ _ _ x).
    + set_solver.
  - intros l n Hl Hn HnA. rewrite st_Permutation.
    apply (Hfirst A [] _ _ n eq_refl (scan_hit _ _ _ _ _ _ Hl)).
    + by rewrite st_Permutation.
    + set_solver.
Qed.

End RecursiveFacts.

(** ** The scanner on concrete files *)

(** C1: the pattern is matched case-sensitively, takes single quotes only
    and takes no [-] in a file name, so the INCLUDE lines below, each of
    them Fortran, give no raw reference at all. *)
Theorem findall_misses_directives :
  Re.findall Re.include_re ("      include 'a.inc'" ++ nl) = [] /\
  Re.findall Re.include_re ("      Include 'a.inc'" ++ nl) = [] /\
  Re.findall Re.include_re
    ("      INCLUDE " ++ dquote ++ "a.inc" ++ dquote ++ nl) = [] /\
  Re.findall Re.include_re ("      INCLUDE 'my-defs.inc'" ++ nl) = [].
Proof. vm_compute. done. Qed.

Lemma scan_search_order_witness :
  find_file (nodefs := Posix.fs) fs_two_dirs "x.inc" ["src"; "inc1"; "inc2"]
    = Some "inc1/x.inc" /\
  exists l,
    (Posix.scan "src/main.f" env_two_dirs "main.o" fs_two_dirs empty_world).1 = Ok l /\
    "inc1/x.inc" ∈ l.
Proof.
  apply (scan_search_order (nodefs := Posix.fs) "src/main.f" env_two_dirs
           "main.o" fs_two_dirs empty_world "x.inc" ["src"] "inc1" ["inc2"]).
  - vm_compute. reflexivity.
  - vm_compute. reflexivity.
  - vm_compute. left.
  - vm_compute. reflexivity.
  - intros d' Hd'. apply list_elem_of_singleton in Hd' as ->.
    vm_compute. reflexivity.
  - vm_compute. reflexivity.
Defined.

Lemma C2_counterexample :
  let w1 := (Posix.scan "src/main.f" ∅ "main.o" fs_before_edit empty_world).2 in
  Re.findall Re.include_re (get_contents fs_after_edit "src/main.f") = ["c.inc"] /\
  (Posix.scan "src/main.f" ∅ "main.o" fs_after_edit empty_world).1 = Ok ["src/c.inc"] /\
  (Posix.scan "src/main.f" ∅ "main.o" fs_after_edit w1).1 = Ok ["src/a.inc"] /\
  includes (attrs (Posix.scan "src/main.f" ∅ "main.o" fs_after_edit w1).2 "src/main.f")
    = Some ["a.inc"] /\
  (Posix.scan "src/main.f" env_inc "other.o" fs_after_edit w1).1 = Ok ["src/a.inc"].
Proof. vm_compute. done. Qed.

Lemma scan_reuses_raw_references_witness :
  let w1 := (Posix.scan "src/main.f" ∅ "main.o" fs_before_edit empty_world).2 in
  includes (attrs w1 "src/main.f") = Some ["a.inc"] /\
  (forall env' fs',
     Posix.scan "src/main.f" env' "main.o" fs' w1 = (Ok ["src/a.inc"], w1)) /\
  (Posix.scan "src/main.f" env_inc "other.o" fs_after_edit w1).1
    = Ok ["src/a.inc"].
Proof.
  destruct (scan_reuses_raw_references (nodefs := Posix.fs) "src/main.f" ∅
              "main.o" fs_before_edit empty_world)
    as (Hsame & _ & Hinc & _).
  destruct (scan_reuses_raw_references (nodefs := Posix.fs) "src/main.f"
              env_inc "other.o" fs_after_edit
              (Posix.scan "src/main.f" ∅ "main.o" fs_before_edit empty_world).2)
    as (_ & Hcached & _ & _).
  split; [|split].
  - etrans; [apply Hinc; vm_compute; reflexivity|vm_compute; reflexivity].
  - exact Hsame.
  - etrans; [apply (Hcached ["a.inc"]); vm_compute; reflexivity|].
    vm_compute. reflexivity.
Defined.

Lemma C5_counterexample :
  let w1 := (Posix.scan "src/main.f" env_inc "main.o" fs_main empty_world).2 in
  let w2 := (Posix.scan "src/main.f" env_lib "main.o" fs_main empty_world).2 in
  f77path_of w1 !! "main.o" = Some ["inc"] /\
  f77path_of w2 !! "main.o" = Some ["lib"] /\
  warnings w1 = warnings w2 /\
  warnings w1 = [mkWarning DependencyWarning
     "No dependency generated for file: b.inc (included from: src/main.f) -- file not found"].
Proof. vm_compute. done. Qed.

Lemma scan_warns_once_per_unresolved_witness :
  (Posix.scan "src/main.f" ∅ "main.o" fs_main empty_world).1 = Ok ["src/a.inc"] /\
  warnings (Posix.scan "src/main.f" ∅ "main.o" fs_main empty_world).2 =
    [mkWarning DependencyWarning
       "No dependency generated for file: b.inc (included from: src/main.f) -- file not found"].
Proof.
  destruct (scan_warns_once_per_unresolved (nodefs := Posix.fs) "src/main.f" ∅
              "main.o" fs_main empty_world) as [Hr Hw].
  - vm_compute. reflexivity.
  - vm_compute. reflexivity.
  - split; (etrans; [eassumption|vm_compute; reflexivity]).
Defined.

Lemma C6_counterexample :
  let w1 := (Posix.scan "src/gen.f" ∅ "gen.o" fs_not_built empty_world).2 in
  (Posix.scan "src/gen.f" ∅ "gen.o" fs_not_built empty_world).1 = Ok [] /\
  (Posix.scan "src/gen.f" ∅ "gen.o" fs_built w1).1 = Ok [] /\
  (Posix.scan "src/gen.f" ∅ "gen.o" fs_built empty_world).1 = Ok ["src/a.inc"].
Proof. vm_compute. done. Qed.

Lemma scan_missing_node_cached_witness :
  let w1 := (Posix.scan "src/gen.f" ∅ "gen.o" fs_not_built empty_world).2 in
  (Posix.scan "src/gen.f" ∅ "gen.o" fs_not_built empty_world).1 = Ok [] /\
  (forall env' fs', Posix.scan "src/gen.f" env' "gen.o" fs' w1 = (Ok [], w1)).
Proof.
  destruct (scan_missing_node_cached (nodefs := Posix.fs) "src/gen.f" ∅
              "gen.o" fs_not_built empty_world)
    as (Hr & _ & Hsame & _).
  - vm_compute. reflexivity.
  - vm_compute. reflexivity.
  - split; [exact Hr|exact Hsame].
Defined.

Lemma C7_counterexample :
  (Posix.scan "src/main.f" ∅ "main.o" fs_twice empty_world).1
    = Ok ["src/a.inc"; "src/a.inc"] /\
  ~ NoDup ["src/a.inc"; "src/a.inc"].
Proof.
  split; [vm_compute; reflexivity|].
  intros Hnd. apply NoDup_cons in Hnd as [Hnotin _]. apply Hnotin. left.
Qed.

Lemma scan_one_entry_per_reference_witness :
  exists l,
    (Posix.scan "src/main.f" ∅ "main.o" fs_twice empty_world).1 = Ok l /\
    l ≡ₚ ["src/a.inc"; "src/a.inc"].
Proof.
  destruct (scan_one_entry_per_reference (nodefs := Posix.fs) "src/main.f" ∅
              "main.o" fs_twice empty_world) as (l & Hl & Hperm & _).
  - vm_compute. reflexivity.
  - vm_compute. reflexivity.
  - exists l. split; [exact Hl|]. rewrite Hperm. vm_compute. reflexivity.
Defined.

Lemma FortranScan_include_cycle_witness :
  exists deps w',
    Posix.FortranScan 4 "src/a.f" ∅ "a.o" fs_cycle empty_world
      = (Ok (Some deps), w') /\
    ("src/a.f" ∉ deps) /\ ("src/b.f" ∈ deps).
Proof.
  destruct (FortranScan_include_cycle (nodefs := Posix.fs) "src/a.f" "src/b.f" ∅
              "a.o" fs_cycle empty_world 4 "b.f" "a.f")
    as (deps & w' & Hrun & HA & HB & _).
  - done.
  - vm_compute. reflexivity.
  - vm_compute. left.
  - vm_compute. reflexivity.
  - vm_compute. reflexivity.
  - vm_compute. left.
  - vm_compute. reflexivity.
  - vm_compute. lia.
  - exists deps, w'. split; [exact Hrun|]. split; [exact HA|].
    apply HB; vm_compute; reflexivity.
Defined.

Lemma C8_counterexample :
  let w := (Posix.scan "src/a.f" ∅ "a.o" fs_only_b empty_world).2 in
  Re.findall Re.include_re (get_contents fs_cycle "src/a.f") = ["b.f"] /\
  find_file (nodefs := Posix.fs) fs_cycle "b.f" ["src"] = Some "src/b.f" /\
  Re.findall Re.include_re (get_contents fs_cycle "src/b.f") = ["a.f"] /\
  find_file (nodefs := Posix.fs) fs_cycle "a.f" ["src"] = Some "src/a.f" /\
  (forall fuel, 2 <= fuel ->
     (Posix.FortranScan fuel "src/a.f" ∅ "a.o" fs_cycle w).1 = Ok (Some [])) /\
  (Posix.FortranScan 4 "src/a.f" ∅ "a.o" fs_cycle empty_world).1
    = Ok (Some ["src/b.f"]).
Proof.
  repeat split; try (vm_compute; reflexivity).
  intros [|[|fuel]] Hfuel; [lia|lia|]. vm_compute. reflexivity.
Qed.


(** ** More on what [include_re] finds *)

Section ReMore.

Import Re.

Lemma findall_nil : findall include_re "" = [].
Proof. reflexivity. Qed.

Lemma match_here_needs_I c s :
  Ascii.eqb c "I"%char = false -> match_here include_re (String c s) "" = None.
Proof.
  intros Hc. unfold include_re. cbn [match_here strip].
  rewrite Ascii.eqb_sym in Hc. by rewrite Hc.
Qed.

(** A text without the letter [I] in front of the content changes nothing
    to what [findall] returns; alone, it gives no reference. *)
Theorem findall_skips_text sep t :
  no_capital_I sep = true ->
  findall include_re (sep ++ t) = findall include_re t /\
  findall include_re sep = [].
Proof.
  intros Hsep.
  assert (Hskip : forall t', findall include_re (sep ++ t') = findall include_re t').
  { intros t'. induction sep as [|c sep IH]; [done|].
    unfold no_capital_I in Hsep. cbn [all_in] in Hsep.
    apply andb_true_iff in Hsep as [Hc Hsep]. apply negb_true_iff in Hc.
    rewrite append_cons, findall_step, match_here_needs_I by done.
    by apply IH. }
  split; [apply Hskip|].
  rewrite <- (append_nil_r sep), Hskip. apply findall_nil.
Qed.

(** Every reference [findall] returns is the file name of a directive that
    stands in the content: it is not empty, made of the characters of
    [[\w./\\]], and the content has the keyword, a run of blanks and the
    name between single quotes. *)
Theorem findall_sound s g :
  g ∈ findall include_re s ->
  g <> "" /\ all_in is_name_char g = true /\
  exists pre blanks post,
    blanks <> "" /\ all_in is_blank blanks = true /\
    s = pre ++ directive blanks g ++ post.
Proof.
  remember (String.length s) as n eqn:Hn. revert s Hn.
  induction (lt_wf n) as [n _ IH]. intros s -> Hg.
  destruct s as [|c s]; [by apply elem_of_nil in Hg|].
  rewrite findall_step in Hg.
  destruct (match_here include_re (String c s) "") as [[g' rest]|] eqn:Hm.
  - apply match_here_sound in Hm as (b1 & Hb1 & Hb2 & Hg1 & Hg2 & Heq).
    apply elem_of_cons in Hg as [->|Hg].
    + split; [done|]. split; [done|].
      exists "", b1, rest. by rewrite append_nil_l.
    + destruct (IH (String.length rest)) with (s := rest)
        as (Hn1 & Hn2 & pre & blanks & post & Hb1' & Hb2' & Hrest); try done.
      { rewrite Heq. unfold directive. rewrite !length_append. simpl. lia. }
      split; [done|]. split; [done|].
      exists (directive b1 g' ++ pre), blanks, post.
      split; [done|]. split; [done|].
      by rewrite Heq, Hrest, !append_assoc.
  - destruct (IH (String.length s)) with (s := s)
      as (Hn1 & Hn2 & pre & blanks & post & Hb1' & Hb2' & Hs); try done.
    { simpl. lia. }
    split; [done|]. split; [done|].
    exists (String c pre), blanks, post.
    split; [done|]. split; [done|]. by rewrite Hs.
Qed.

(** The references come out in the order of the directives in the content,
    one for each directive, repeated ones included. *)
Theorem findall_in_text_order pieces tail :
  Forall well_formed_piece pieces ->
  no_capital_I tail = true ->
  findall include_re (text_of pieces tail) = map snd pieces.
Proof.
  intros Hpieces Htail.
  induction Hpieces as [|[[sep blanks] name] pieces Hp _ IH]; simpl.
  - by apply (findall_skips_text tail "").
  - destruct Hp as (Hsep & Hb1 & Hb2 & Hn1 & Hn2).
    destruct (findall_skips_text sep (directive blanks name ++ text_of pieces tail) Hsep)
      as [-> _].
    rewrite (findall_at_match _ name (text_of pieces tail))
      by by apply match_here_directive.
    by rewrite IH.
Qed.

End ReMore.

(** ** What [scan] leaves alone *)

Section ScanMore.

Context {nodefs : NodeFS}.

(** [scan] writes to one place in each cache: the attributes of other nodes,
    the entries of [found_includes] under other search paths, and the
    [f77path] of other targets are after the call what they were before. *)
Theorem scan_frame node env target fs w :
  let w1 := (scan node env target fs w).2 in
  (forall n, n <> rfile node -> attrs w1 n = attrs w n) /\
  (forall p, p <> search_path env target w ->
     found_includes (attrs w1 (rfile node)) !! p
       = found_includes (attrs w (rfile node)) !! p) /\
  (forall t, t <> target -> f77path_of w1 !! t = f77path_of w !! t).
Proof.
  destruct (found_includes (attrs w (rfile node)) !! search_path env target w)
    as [l|] eqn:Hl.
  - rewrite (scan_hit _ _ _ _ _ l) by done. simpl. repeat split; try done.
    intros t Ht. by rewrite lookup_insert_ne.
  - rewrite scan_miss by done. simpl. repeat split.
    + intros n Hn. unfold miss_world, attrs. simpl.
      by rewrite lookup_insert_ne.
    + intros p Hp. unfold miss_world, attrs. simpl.
      rewrite lookup_insert_eq. simpl. by rewrite lookup_insert_ne.
    + intros t Ht. by rewrite lookup_insert_ne.
Qed.

(** [scan] never drops or changes what is cached: an entry of
    [found_includes], a [node.includes] that is not [None] and a
    [target.f77path] that is set are the same after the call, for every node
    and target. *)
Theorem scan_keeps_caches node env target fs w :
  let w1 := (scan node env target fs w).2 in
  (forall n p l, found_includes (attrs w n) !! p = Some l ->
     found_includes (attrs w1 n) !! p = Some l) /\
  (forall n l, includes (attrs w n) = Some l -> includes (attrs w1 n) = Some l) /\
  (forall t p, f77path_of w !! t = Some p -> f77path_of w1 !! t = Some p).
Proof.
  assert (Ht : forall t p, f77path_of w !! t = Some p ->
            <[target := search_path env target w]> (f77path_of w) !! t = Some p).
  { intros t p Hp. destruct (decide (target = t)) as [<-|Hne].
    - rewrite lookup_insert_eq. by rewrite (search_path_cached _ _ _ p).
    - by rewrite lookup_insert_ne. }
  destruct (found_includes (attrs w (rfile node)) !! search_path env target w)
    as [l0|] eqn:Hl.
  - rewrite (scan_hit _ _ _ _ _ l0) by done. simpl. repeat split; try done.
  - rewrite scan_miss by done. simpl. repeat split; [| |done].
    + intros n p l Hn. unfold miss_world, attrs. simpl.
      destruct (decide (rfile node = n)) as [<-|Hne].
      * rewrite lookup_insert_eq. simpl.
        destruct (decide (search_path env target w = p)) as [<-|Hp];
          [congruence|]. by rewrite lookup_insert_ne.
      * by rewrite lookup_insert_ne.
    + intros n l Hn. unfold miss_world, attrs. simpl.
      destruct (decide (rfile node = n)) as [<-|Hne].
      * rewrite lookup_insert_eq. simpl. unfold raw_includes.
        fold (attrs w (rfile node)). rewrite Hn. by destruct (rexists fs (rfile node)).
      * by rewrite lookup_insert_ne.
Qed.

(** Once the target has its [f77path], [scan] does not read the
    environment: two environments give the same result and the same
    state. *)
Theorem scan_ignores_env_once_cached node env1 env2 target fs w p :
  f77path_of w !! target = Some p ->
  scan node env1 target fs w = scan node env2 target fs w.
Proof.
  intros Hp. unfold scan, bind. rewrite !scan_f77path_spec.
  by rewrite !(search_path_cached _ _ _ p Hp).
Qed.

(** [scan] only adds to the warnings, and only [DependencyWarning]s; it adds
    none when the nodes come from [found_includes], and none for a node that
    is not on storage. *)
Theorem scan_appends_warnings node env target fs w :
  exists new,
    warnings (scan node env target fs w).2 = (warnings w ++ new)%list /\
    Forall (fun e => w_class e = DependencyWarning) new /\
    (is_Some (found_includes (attrs w (rfile node)) !! search_path env target w) ->
     new = []) /\
    (rexists fs (rfile node) = false -> new = []).
Proof.
  destruct (found_includes (attrs w (rfile node)) !! search_path env target w)
    as [l|] eqn:Hl.
  - exists []. rewrite (scan_hit _ _ _ _ _ l) by done. simpl.
    rewrite app_nil_r. done.
  - exists (miss_warnings fs w (rfile node) (search_path env target w)).
    rewrite scan_miss by done. simpl. split; [done|]. split; [|split].
    + unfold miss_warnings. destruct (rexists fs (rfile node)); [|done].
      by apply Forall_map, Forall_true.
    + by intros [? ?].
    + intros Hex. unfold miss_warnings. by rewrite Hex.
Qed.

Lemma omap_filter_length {A B} (f : A -> option B) (l : list A) :
  List.length (omap f l) + List.length (filter (fun x => f x = None) l)
  = List.length l.
Proof.
  induction l as [|x l IH]; [done|]. rewrite filter_cons. simpl.
  change (list_omap A B f l) with (omap f l).
  destruct (decide (f x = None)) as [Hx|Hx].
  - rewrite Hx. simpl. lia.
  - destruct (f x); [simpl; lia|done].
Qed.

(** When the references of a node on storage are resolved, each one is
    accounted for: the nodes returned and the warnings added are together as
    many as the raw references. *)
Theorem scan_accounts_for_references node env target fs w :
  found_includes (attrs w (rfile node)) !! search_path env target w = None ->
  rexists fs (rfile node) = true ->
  exists l,
    (scan node env target fs w).1 = Ok l /\
    List.length l + List.length (warnings (scan node env target fs w).2)
    = List.length (warnings w) + List.length (raw_includes fs w (rfile node)).
Proof.
  intros Hmiss Hex. rewrite scan_miss by done. simpl.
  eexists. split; [done|].
  rewrite st_Permutation, length_app.
  unfold miss_nodes, miss_warnings, resolved, unresolved. rewrite Hex.
  rewrite length_map.
  pose proof (omap_filter_length
    (fun include => find_file fs include
       (get_dir (rfile node) :: search_path env target w))
    (raw_includes fs w (rfile node))) as Hlen.
  lia.
Qed.

(** A scan of a node that is not on storage reads no content: it leaves
    [node.includes] as it was and gives no warning, so the references are
    still to be searched when the node is there. *)
Theorem scan_missing_node_reads_nothing node env target fs w :
  rexists fs (rfile node) = false ->
  let w1 := (scan node env target fs w).2 in
  includes (attrs w1 (rfile node)) = includes (attrs w (rfile node)) /\
  warnings w1 = warnings w.
Proof.
  intros Hex.
  destruct (found_includes (attrs w (rfile node)) !! search_path env target w)
    as [l|] eqn:Hl.
  - rewrite (scan_hit _ _ _ _ _ l) by done. done.
  - rewrite scan_miss by done. simpl. unfold miss_world, miss_warnings, attrs.
    simpl. rewrite lookup_insert_eq, Hex. simpl. by rewrite app_nil_r.
Qed.

Lemma find_file_same_files fs fs' x paths :
  dom fs = dom fs' -> find_file fs x paths = find_file fs' x paths.
Proof.
  intros Hdom. induction paths as [|d paths IH]; [done|]. simpl.
  assert (Hex : rexists fs (File x d) = rexists fs' (File x d)).
  { unfold rexists. apply bool_decide_ext.
    by rewrite <- !elem_of_dom, Hdom. }
  by rewrite Hex, IH.
Qed.

(** With [node.includes] set, [scan] does not read the content of the node
    again: on two storages that hold the same files, whatever is in them,
    it gives the same result and the same state. *)
Theorem scan_reads_content_once node env target fs fs' w l :
  includes (attrs w (rfile node)) = Some l ->
  dom fs = dom fs' ->
  scan node env target fs w = scan node env target fs' w.
Proof.
  intros Hinc Hdom.
  destruct (found_includes (attrs w (rfile node)) !! search_path env target w)
    as [l0|] eqn:Hl.
  - by rewrite !(scan_hit _ _ _ _ _ l0).
  - rewrite !scan_miss by done.
    assert (Hex : rexists fs (rfile node) = rexists fs' (rfile node)).
    { unfold rexists. apply bool_decide_ext.
      by rewrite <- !elem_of_dom, Hdom. }
    assert (Hraw : raw_includes fs w (rfile node) = raw_includes fs' w (rfile node)).
    { unfold raw_includes. by rewrite Hinc. }
    assert (Hres : forall p incs, resolved fs p incs = resolved fs' p incs).
    { intros p incs. unfold resolved. apply list_omap_ext.
      apply Forall_Forall2_diag, Forall_forall. intros x _.
      by apply find_file_same_files. }
    assert (Hunres : forall p incs, unresolved fs p incs = unresolved fs' p incs).
    { intros p incs. unfold unresolved. apply list_filter_iff.
      intros x. by rewrite (find_file_same_files fs fs'). }
    unfold miss_world, miss_nodes, miss_warnings.
    by rewrite Hex, Hraw, Hres, Hunres.
Qed.

(** [st] sorts what it is given and nothing else matters: sorting a sorted
    list again, or two lists joined in either order, or joined after each
    was sorted, gives the same list. *)
Theorem st_composes (l1 l2 : list Node) Metric :
  st (st l1 Metric) Metric = st l1 Metric /\
  st (l1 ++ l2) Metric = st (l2 ++ l1) Metric /\
  st (st l1 Metric ++ st l2 Metric) Metric = st (l1 ++ l2) Metric.
Proof.
  repeat split; apply st_order_independent.
  - apply st_Permutation.
  - apply Permutation_app_comm.
  - by rewrite !st_Permutation.
Qed.

End ScanMore.

(** ** More of the scanner on concrete files *)

Lemma findall_finds_directive_witness :
  "a.inc" ∈ Re.findall Re.include_re
              (("C     I/O" ++ nl ++ "      ") ++ Re.directive "  " "a.inc" ++ nl).
Proof.
  apply (findall_finds_directive "  " "a.inc" nl); vm_compute; done.
Defined.

Lemma findall_skips_text_witness :
  Re.findall Re.include_re ("c     a comment" ++ nl ++ "      INCLUDE 'a.inc'")
    = Re.findall Re.include_re "      INCLUDE 'a.inc'" /\
  Re.findall Re.include_re ("c     a comment" ++ nl) = [].
Proof.
  apply (findall_skips_text ("c     a comment" ++ nl) "      INCLUDE 'a.inc'").
  vm_compute. reflexivity.
Defined.

Lemma findall_sound_witness :
  "a.inc" <> "" /\ Re.all_in Re.is_name_char "a.inc" = true /\
  exists pre blanks post,
    blanks <> "" /\ Re.all_in Re.is_blank blanks = true /\
    main_f = pre ++ Re.directive blanks "a.inc" ++ post.
Proof.
  apply (findall_sound main_f "a.inc"). vm_compute. left.
Defined.

Lemma findall_in_text_order_witness :
  Re.findall Re.include_re
    (Re.text_of [("      ", " ", "b.inc"); (nl ++ "      ", "  ", "a.inc");
                 (nl ++ "c     again" ++ nl, " ", "b.inc")] nl)
  = ["b.inc"; "a.inc"; "b.inc"].
Proof.
  apply (findall_in_text_order
           [("      ", " ", "b.inc"); (nl ++ "      ", "  ", "a.inc");
            (nl ++ "c     again" ++ nl, " ", "b.inc")] nl).
  - repeat constructor; vm_compute; done.
  - vm_compute. reflexivity.
Defined.

Lemma scan_ignores_env_once_cached_witness :
  let w := (Posix.scan "src/a.inc" env_inc "main.o" fs_main empty_world).2 in
  Posix.scan "src/main.f" env_lib "main.o" fs_main w
  = Posix.scan "src/main.f" ∅ "main.o" fs_main w.
Proof.
  apply (scan_ignores_env_once_cached (nodefs := Posix.fs) "src/main.f"
           env_lib ∅ "main.o" fs_main _ ["inc"]).
  vm_compute. reflexivity.
Defined.

Lemma scan_accounts_for_references_witness :
  exists l,
    (Posix.scan "src/main.f" ∅ "main.o" fs_main empty_world).1 = Ok l /\
    List.length l
    + List.length (warnings (Posix.scan "src/main.f" ∅ "main.o" fs_main empty_world).2)
    = 0 + 2.
Proof.
  destruct (scan_accounts_for_references (nodefs := Posix.fs) "src/main.f" ∅
              "main.o" fs_main empty_world) as (l & Hl & Hlen).
  - vm_compute. reflexivity.
  - vm_compute. reflexivity.
  - exists l. split; [exact Hl|exact Hlen].
Defined.

Lemma scan_missing_node_reads_nothing_witness :
  let w1 := (Posix.scan "src/gen.f" ∅ "gen.o" fs_not_built empty_world).2 in
  includes (attrs w1 "src/gen.f") = None /\ warnings w1 = [].
Proof.
  apply (scan_missing_node_reads_nothing (nodefs := Posix.fs) "src/gen.f" ∅
           "gen.o" fs_not_built empty_world).
  vm_compute. reflexivity.
Defined.

Lemma scan_reads_content_once_witness :
  let w := (Posix.scan "src/main.f" ∅ "main.o" fs_before_edit empty_world).2 in
  Posix.scan "src/main.f" env_inc "other.o" fs_before_edit w
  = Posix.scan "src/main.f" env_inc "other.o" fs_after_edit w.
Proof.
  apply (scan_reads_content_once (nodefs := Posix.fs) "src/main.f" env_inc
           "other.o" fs_before_edit fs_after_edit _ ["a.inc"]).
  - vm_compute. reflexivity.
  - vm_compute. reflexivity.
Defined.


Example scan_mixed_case :
  (Posix.scan "src/main.f" ∅ "main.o" fs_mixed_case empty_world).1
  = Ok ["src/a.inc"; "src/B.inc"].
Proof. vm_compute. reflexivity. Qed.
